(** * Component loader and knob widget: a shallow embedding

    The development follows [src/demo/js/component-loader.js] (the
    scan / initialize / notify protocol) and, of [src/component-knob.js],
    the configuration path of [init] and the timing of the animation loop.

    - JavaScript objects used as dictionaries are finite maps, arrays are
      lists; a lookup by name that misses the own properties of
      [_componentsHash] or [_availableComponents] falls through to the
      prototype, as it does in JavaScript.
    - An exception is an outcome that keeps the state reached when it was
      raised: JavaScript does not roll back.
    - The loader calls code it does not own: the constructor, [init] and
      [render] of each component.  A constructor is given by what it returns
      for an element; [init] and [render] are given by a list of effects on
      the loader, which may call [notifyAll] again and may raise.  Callbacks
      that register, scan or touch the document are outside the model, and
      each construction yields an object of its own.
    - [Math.random] is the list of the values it is going to return.
    - Every call of a constructor, an [init] or a [render] leaves an event in
      a trace, so that "invoked exactly once" can be counted. *)

From Stdlib Require Import ZArith String Ascii List Lia Decimal DecimalString.
From stdpp Require Import base option gmap strings list fin_maps.

Local Open Scope string_scope.
Local Open Scope Z_scope.
Local Open Scope list_scope.

(** ** JavaScript string primitives used by the loader *)

Module JsString.

(** [s.indexOf(p)] counted from position [i] of the original string:
    the first position where [p] occurs, [-1] when there is none. *)
Fixpoint indexOf_from (p s : string) (i : Z) : Z :=
  if String.prefix p s then i
  else match s with
       | EmptyString => -1
       | String _ s' => indexOf_from p s' (i + 1)
       end.

Definition indexOf (s p : string) : Z := indexOf_from p s 0.

(** [s.slice(n)] for [0 <= n]: the characters from position [n] on. *)
Fixpoint slice (s : string) (n : nat) : string :=
  match n, s with
  | O, _ => s
  | S _, EmptyString => EmptyString
  | S n', String _ s' => slice s' n'
  end.

(** [s.split(sep)] for a one-character separator. *)
Fixpoint split (sep : ascii) (s : string) : list string :=
  match s with
  | EmptyString => [EmptyString]
  | String c s' =>
      if Ascii.eqb c sep then EmptyString :: split sep s'
      else match split sep s' with
           | t :: ts => String c t :: ts
           | [] => [String c EmptyString]
           end
  end.

(** ["" + n] for a non-negative integer [n]: its decimal digits. *)
Definition of_number (n : N) : string :=
  NilEmpty.string_of_uint (N.to_uint n).

Definition is_letter (c : ascii) : bool :=
  let n := nat_of_ascii c in
  ((65 <=? n)%nat && (n <=? 90)%nat) || ((97 <=? n)%nat && (n <=? 122)%nat).

Definition starts_with_letter (s : string) : bool :=
  match s with
  | EmptyString => false
  | String c _ => is_letter c
  end.

End JsString.

(** ** The document

    Elements are references ([elem]); the tree gives the document order that
    [querySelectorAll] follows, the attribute store gives what
    [getAttribute], [setAttribute] and [getComputedStyle] read and write. *)

Definition elem := nat.

#[warnings="-register-all"]
Inductive node := Node (id : elem) (children : list node).

Fixpoint subtree (n : node) : list elem :=
  match n with
  | Node i cs => i :: flat_map subtree cs
  end.

(** [querySelectorAll] never selects the element it is called on. *)
Definition descendants (n : node) : list elem :=
  match n with
  | Node _ cs => flat_map subtree cs
  end.

Record element := {
  el_class : option string;          (* attribute class, None when absent *)
  el_componentized : option string;  (* attribute data-componentized *)
  el_display : string;               (* computed style display *)
  el_visibility : string;            (* computed style visibility *)
  el_offsetParent : option elem      (* None is null *)
}.

(** An element that the store does not list has no attribute and is not laid
    out. *)
Definition detached : element :=
  {| el_class := None; el_componentized := None;
     el_display := ""; el_visibility := ""; el_offsetParent := None |}.

(** ** Components as the loader sees them *)

(** What a callback of a component may do to the loader: call back into
    [componentLoader.notifyAll()], or raise. *)
Inductive effect :=
  | CallNotifyAll
  | Raise (msg : string).

Definition behaviour := list effect.

(** The members the loader inspects with [typeof x.init === "function"]:
    [None] is "not a function". *)
Record members := {
  m_init : option behaviour;
  m_render : option behaviour
}.

(** What the body of a constructor function hands back. *)
Inductive ctor_return :=
  | ReturnsNothing                      (* undefined, null or any primitive *)
  | ReturnsObject (m : members)         (* a plain object *)
  | ReturnsFunction (m : members).      (* a function object *)

Inductive ctor_outcome :=
  | CtorRaises (msg : string)
  | CtorCompletes (this_members : members) (ret : ctor_return).

(** The second argument of [register]: any JavaScript value. *)
Inductive jsfunc :=
  | FuncUndefined
  | FuncNotConstructor
  | FuncConstructor (body : elem → ctor_outcome).

(** The value of [new oFunction(element)]. *)
Record new_value := {
  nv_is_function : bool;       (* typeof is "function" rather than "object" *)
  nv_members : members
}.

(** An instance once the loader has assigned [id] and [context]. *)
Record componentAPI := {
  api_id : string;
  api_context : elem;
  api_init : option behaviour;
  api_render : option behaviour
}.

Record descriptor := { name : string; func : jsfunc }.

Inductive event :=
  | EvConstruct (sName : string) (element : elem)
  | EvInit (id : string)
  | EvRender (id : string).

Inductive exn :=
  | ThrowString (msg : string)   (* throw "..." *)
  | TypeError
  | SyntaxError.

(** ** The loader's state *)

Record loader := {
  _componentsHash : gmap string (list elem);
  _availableComponents : list descriptor;
  _registeredComponents : gmap string componentAPI;
  _registeredForNotifications : list componentAPI;
  notifying : bool;
  document_body : node;
  elements : gmap elem element;
  random : list N;        (* the values Math.floor(Math.random() * 10000000) will take *)
  trace : list event
}.

Definition set_componentsHash (f : gmap string (list elem) → gmap string (list elem))
    (st : loader) : loader :=
  {| _componentsHash := f (_componentsHash st);
     _availableComponents := _availableComponents st;
     _registeredComponents := _registeredComponents st;
     _registeredForNotifications := _registeredForNotifications st;
     notifying := notifying st; document_body := document_body st;
     elements := elements st; random := random st; trace := trace st |}.

Definition set_availableComponents (f : list descriptor → list descriptor)
    (st : loader) : loader :=
  {| _componentsHash := _componentsHash st;
     _availableComponents := f (_availableComponents st);
     _registeredComponents := _registeredComponents st;
     _registeredForNotifications := _registeredForNotifications st;
     notifying := notifying st; document_body := document_body st;
     elements := elements st; random := random st; trace := trace st |}.

Definition set_registeredComponents
    (f : gmap string componentAPI → gmap string componentAPI) (st : loader) : loader :=
  {| _componentsHash := _componentsHash st;
     _availableComponents := _availableComponents st;
     _registeredComponents := f (_registeredComponents st);
     _registeredForNotifications := _registeredForNotifications st;
     notifying := notifying st; document_body := document_body st;
     elements := elements st; random := random st; trace := trace st |}.

Definition set_registeredForNotifications
    (f : list componentAPI → list componentAPI) (st : loader) : loader :=
  {| _componentsHash := _componentsHash st;
     _availableComponents := _availableComponents st;
     _registeredComponents := _registeredComponents st;
     _registeredForNotifications := f (_registeredForNotifications st);
     notifying := notifying st; document_body := document_body st;
     elements := elements st; random := random st; trace := trace st |}.

Definition set_notifying (b : bool) (st : loader) : loader :=
  {| _componentsHash := _componentsHash st;
     _availableComponents := _availableComponents st;
     _registeredComponents := _registeredComponents st;
     _registeredForNotifications := _registeredForNotifications st;
     notifying := b; document_body := document_body st;
     elements := elements st; random := random st; trace := trace st |}.

Definition set_elements (f : gmap elem element → gmap elem element)
    (st : loader) : loader :=
  {| _componentsHash := _componentsHash st;
     _availableComponents := _availableComponents st;
     _registeredComponents := _registeredComponents st;
     _registeredForNotifications := _registeredForNotifications st;
     notifying := notifying st; document_body := document_body st;
     elements := f (elements st); random := random st; trace := trace st |}.

Definition set_random (r : list N) (st : loader) : loader :=
  {| _componentsHash := _componentsHash st;
     _availableComponents := _availableComponents st;
     _registeredComponents := _registeredComponents st;
     _registeredForNotifications := _registeredForNotifications st;
     notifying := notifying st; document_body := document_body st;
     elements := elements st; random := r; trace := trace st |}.

Definition append_trace (evs : list event) (st : loader) : loader :=
  {| _componentsHash := _componentsHash st;
     _availableComponents := _availableComponents st;
     _registeredComponents := _registeredComponents st;
     _registeredForNotifications := _registeredForNotifications st;
     notifying := notifying st; document_body := document_body st;
     elements := elements st; random := random st; trace := trace st ++ evs |}.

Definition add_event (ev : event) : loader → loader := append_trace [ev].

(** ** Computations that may raise

    A raised exception keeps the state it was raised in.  [NoResult] stands
    for a computation of which the model sees no end: the nesting budget of
    re-entrant calls is used up, or the listed random draws are. *)

Inductive outcome (A : Type) :=
  | Normal (a : A) (st : loader)
  | Throws (e : exn) (st : loader)
  | NoResult.
Arguments Normal {A} a st.
Arguments Throws {A} e st.
Arguments NoResult {A}.

Definition M (A : Type) : Type := loader → outcome A.

Definition ret {A} (a : A) : M A := λ st, Normal a st.

Definition bind {A B} (m : M A) (k : A → M B) : M B :=
  λ st, match m st with
        | Normal a st' => k a st'
        | Throws e st' => Throws e st'
        | NoResult => NoResult
        end.

Declare Scope loader_scope.
Delimit Scope loader_scope with loader.
Notation "'let!' x ':=' c 'in' k" := (bind c (λ x, k))
  (at level 10, x name, c at level 100, k at level 200) : loader_scope.
Notation "c '>>' k" := (bind c (λ _, k))
  (at level 90, right associativity) : loader_scope.
Local Open Scope loader_scope.

Definition throw {A} (e : exn) : M A := λ st, Throws e st.
Definition get : M loader := λ st, Normal st st.
Definition modify (f : loader → loader) : M unit := λ st, Normal tt (f st).
Definition no_result {A} : M A := λ _, NoResult.

(** [array.forEach(callback)] over an array that the callbacks do not
    resize. *)
Fixpoint forEach {A} (callback : A → M unit) (l : list A) : M unit :=
  match l with
  | [] => ret tt
  | x :: l' => callback x >> forEach callback l'
  end.

(** The state an outcome leaves behind, when there is one. *)
Definition final_state {A} (o : outcome A) : option loader :=
  match o with
  | Normal _ st => Some st
  | Throws _ st => Some st
  | NoResult => None
  end.

(** ** Property lookup on the two kinds of JavaScript object the loader
    indexes by name

    [_componentsHash] is a plain object and [_availableComponents] an array;
    a lookup by name that finds no own property goes on to the prototype.
    The tables list the property names of [Object.prototype] and
    [Array.prototype] of ECMAScript 5.1 (sections 15.2.4 and 15.4.4, and the
    [__proto__] family of its annex). *)

Definition Object_prototype_names : list string :=
  ["constructor"; "toString"; "toLocaleString"; "valueOf"; "hasOwnProperty";
   "isPrototypeOf"; "propertyIsEnumerable"; "__proto__"; "__defineGetter__";
   "__defineSetter__"; "__lookupGetter__"; "__lookupSetter__"].

Definition Array_prototype_names : list string :=
  ["concat"; "join"; "pop"; "push"; "reverse"; "shift"; "slice"; "sort";
   "splice"; "unshift"; "indexOf"; "lastIndexOf"; "every"; "some"; "forEach";
   "map"; "filter"; "reduce"; "reduceRight"].

Definition inherited_by_object (key : string) : bool :=
  bool_decide (key ∈ Object_prototype_names).

(** What [_componentsHash[sName]] evaluates to. *)
Inductive hash_slot :=
  | SlotArray (arr : list elem)   (* an own property: a bucket *)
  | SlotInherited                 (* a member of Object.prototype: truthy, not an array *)
  | SlotUndefined.

Definition hash_get (h : gmap string (list elem)) (sName : string) : hash_slot :=
  match h !! sName with
  | Some arr => SlotArray arr
  | None => if inherited_by_object sName then SlotInherited else SlotUndefined
  end.

(** [key] is the canonical spelling of an index below [len]. *)
Definition is_index_below (len : nat) (key : string) : bool :=
  existsb (λ i, String.eqb key (JsString.of_number (N.of_nat i))) (seq 0 len).

(** [typeof(arr[key]) === "undefined"] for an array [arr] of objects. *)
Definition array_typeof_undefined {A} (arr : list A) (key : string) : bool :=
  negb (is_index_below (length arr) key
        || String.eqb key "length"
        || bool_decide (key ∈ Array_prototype_names)
        || inherited_by_object key).

(** ** DOM access *)

Definition get_element (st : loader) (e : elem) : element :=
  default detached (elements st !! e).

(** A string attribute is truthy when present and not empty. *)
Definition truthy (v : option string) : bool :=
  match v with
  | Some s => negb (String.eqb s "")
  | None => false
  end.

Definition componentized (st : loader) (e : elem) : bool :=
  truthy (el_componentized (get_element st e)).

(** [element.setAttribute('data-componentized', true)] *)
Definition setAttribute_componentized (e : elem) (st : loader) : loader :=
  set_elements
    (<[e := {| el_class := el_class (get_element st e);
               el_componentized := Some "true";
               el_display := el_display (get_element st e);
               el_visibility := el_visibility (get_element st e);
               el_offsetParent := el_offsetParent (get_element st e) |}]>) st.

Definition COMPONENT_PREFIX : string := "js-component-".

(** [context.querySelectorAll("[class*='js-component-']")] *)
Definition querySelectorAll (st : loader) (context : node) : list elem :=
  List.filter
    (λ e, match el_class (get_element st e) with
          | Some c => -1 <? JsString.indexOf c COMPONENT_PREFIX
          | None => false
          end)
    (descendants context).

Definition isVisible (st : loader) (element : elem) : bool :=
  let oStyle := get_element st element in
  negb (String.eqb (el_display oStyle) "none")
  && negb (String.eqb (el_visibility oStyle) "hidden")
  && bool_decide (el_offsetParent oStyle ≠ None).

(** ** scan *)

(** The callback of [aClassList.forEach]. *)
Definition scan_class (element : elem) (sClass : string) : M unit :=
  let iIndex := JsString.indexOf sClass COMPONENT_PREFIX in
  if -1 <? iIndex then
    let sName := JsString.slice sClass (String.length COMPONENT_PREFIX) in
    let! st := get in
    match hash_get (_componentsHash st) sName with
    | SlotArray elementInstanceArray =>
        modify (set_componentsHash (<[sName := elementInstanceArray ++ [element]]>))
    | SlotInherited => throw TypeError    (* it has no push *)
    | SlotUndefined =>
        modify (set_componentsHash (<[sName := [element]]>))
    end
  else ret tt.

(** The callback of [[].forEach.call(aComponents, ...)]. *)
Definition scan_element (element : elem) : M unit :=
  let! st := get in
  if negb (componentized st element) then
    match el_class (get_element st element) with
    | Some c => forEach (scan_class element) (JsString.split " " c)
    | None => throw TypeError             (* null has no split *)
    end
  else ret tt.

Definition scan (context : option node) : M unit :=
  let! st := get in
  let context := default (document_body st) context in
  forEach scan_element (querySelectorAll st context).

(** ** Callbacks *)

(** One step of a callback; [notify] is what [componentLoader.notifyAll()]
    does when the callback calls it. *)
Definition run_effect (notify : M unit) (e : effect) : M unit :=
  match e with
  | CallNotifyAll => notify
  | Raise msg => throw (ThrowString msg)
  end.

Definition run_behaviour (notify : M unit) (b : behaviour) : M unit :=
  forEach (run_effect notify) b.

(** [componentAPI.render()] *)
Definition call_render (notify : M unit) (componentAPI : componentAPI) : M unit :=
  match api_render componentAPI with
  | Some b => modify (add_event (EvRender (api_id componentAPI))) >> run_behaviour notify b
  | None => throw TypeError
  end.

(** [componentAPI.init()] *)
Definition call_init (notify : M unit) (componentAPI : componentAPI) : M unit :=
  match api_init componentAPI with
  | Some b => modify (add_event (EvInit (api_id componentAPI))) >> run_behaviour notify b
  | None => throw TypeError
  end.

(** ** notifyAll *)

(** The callback of [_registeredForNotifications.forEach], with the index
    the callback receives and the array [toRemove] it pushes to. *)
Fixpoint notify_each (notify : M unit) (items : list componentAPI) (index : nat)
    (toRemove : list nat) : M (list nat) :=
  match items with
  | [] => ret toRemove
  | componentAPI :: rest =>
      let! st := get in
      if bool_decide (is_Some (api_render componentAPI))
         && isVisible st (api_context componentAPI) then
        call_render notify componentAPI >>
        notify_each notify rest (S index) (toRemove ++ [index])
      else notify_each notify rest (S index) toRemove
  end.

(** [while (toRemove.length) _registeredForNotifications.splice(toRemove.pop(), 1)] *)
Definition splice_popped (toRemove : list nat) : M unit :=
  forEach (λ i, modify (set_registeredForNotifications (delete i))) (rev toRemove).

(** [fuel] bounds how deep calls of [notifyAll] from inside [render] may
    nest. *)
Fixpoint notifyAll (fuel : nat) : M unit :=
  match fuel with
  | O => no_result
  | S fuel' =>
      let! st := get in
      if negb (notifying st) then
        modify (set_notifying true) >>
        let! st := get in
        let! toRemove :=
          notify_each (notifyAll fuel') (_registeredForNotifications st) 0 [] in
        splice_popped toRemove >>
        modify (set_notifying false)
      else ret tt
  end.

(** ** initializeComponents *)

(** [new oFunction(element)]: a constructor that returns an object or a
    function yields that value, any other yields the object it was given as
    [this]. *)
Definition construct (sName : string) (oFunction : jsfunc) (element : elem) : M new_value :=
  match oFunction with
  | FuncConstructor body =>
      modify (add_event (EvConstruct sName element)) >>
      match body element with
      | CtorRaises msg => throw (ThrowString msg)
      | CtorCompletes this_members ReturnsNothing =>
          ret {| nv_is_function := false; nv_members := this_members |}
      | CtorCompletes _ (ReturnsObject m) =>
          ret {| nv_is_function := false; nv_members := m |}
      | CtorCompletes _ (ReturnsFunction m) =>
          ret {| nv_is_function := true; nv_members := m |}
      end
  | FuncNotConstructor | FuncUndefined => throw TypeError
  end.

(** The [do ... while (_registeredComponents[componentId])] loop over the
    coming random draws.  An instance is an object, so an entry is truthy;
    no member of [Object.prototype] is spelled [i14...], so only the entries
    count. *)
Fixpoint draw_id (table : gmap string componentAPI) (draws : list N)
    : option (string * list N) :=
  match draws with
  | [] => None
  | r :: rest =>
      let componentId := "i14" +:+ JsString.of_number r in
      match table !! componentId with
      | Some _ => draw_id table rest
      | None => Some (componentId, rest)
      end
  end.

Definition generate_id : M string :=
  λ st, match draw_id (_registeredComponents st) (random st) with
        | Some (componentId, rest) => Normal componentId (set_random rest st)
        | None => NoResult
        end.

Definition is_undefined (oFunction : jsfunc) : bool :=
  match oFunction with
  | FuncUndefined => true
  | _ => false
  end.

Definition invalid_api_message (sName : string) : string :=
  "Component " +:+ sName +:+ " does not return an api".

(** The callback of [elementInstanceArray.forEach]. *)
Definition instantiate (fuel : nat) (sName : string) (oFunction : jsfunc)
    (element : elem) : M unit :=
  let! st := get in
  if negb (is_undefined oFunction) && negb (componentized st element) then
    modify (setAttribute_componentized element) >>
    let! created := construct sName oFunction element in
    let! componentId := generate_id in
    if nv_is_function created then throw (ThrowString (invalid_api_message sName))
    else
      let componentAPI :=
        {| api_id := componentId; api_context := element;
           api_init := m_init (nv_members created);
           api_render := m_render (nv_members created) |} in
      modify (set_registeredComponents (<[componentId := componentAPI]>)) >>
      (if bool_decide (is_Some (api_init componentAPI))
       then call_init (notifyAll fuel) componentAPI else ret tt) >>
      (if bool_decide (is_Some (api_render componentAPI)) then
         let! st := get in
         if isVisible st element then call_render (notifyAll fuel) componentAPI
         else modify (set_registeredForNotifications (λ q, q ++ [componentAPI]))
       else ret tt)
  else ret tt.

(** The body of [for (c = 0; c < nAvailableComponents; c++)]. *)
Definition initialize_component (fuel : nat) (component : descriptor) : M unit :=
  let sName := name component in
  let oFunction := func component in
  let! st := get in
  match hash_get (_componentsHash st) sName with
  | SlotArray elementInstanceArray =>
      forEach (instantiate fuel sName oFunction) elementInstanceArray
  | SlotInherited => throw TypeError     (* it has no forEach *)
  | SlotUndefined => ret tt
  end.

Definition initializeComponents (fuel : nat) : M unit :=
  let! st := get in
  forEach (initialize_component fuel) (_availableComponents st).

Definition checkForNewComponents (fuel : nat) (context : option node) : M unit :=
  scan context >> initializeComponents fuel.

(** ** register, findInstanceById, getFunctionString *)

Definition duplicate_message (sName : string) : string :=
  "There is already a registered component named " +:+ sName.

Definition register (sName : string) (oFunction : jsfunc) : M unit :=
  let! st := get in
  if array_typeof_undefined (_availableComponents st) sName then
    modify (set_availableComponents (λ a, a ++ [{| name := sName; func := oFunction |}]))
  else throw (ThrowString (duplicate_message sName)).

Definition findInstanceById (st : loader) (componentId : string) : option componentAPI :=
  _registeredComponents st !! componentId.

Definition getFunctionString (functionName componentId : string) : string :=
  "ComponentLoader.findInstanceById('" +:+ componentId +:+ "')." +:+ functionName.

(** The loader as the module creates it, over a given document and given
    random draws; the module then runs [scan()] once. *)
Definition empty_loader (body : node) (els : gmap elem element) (draws : list N) : loader :=
  {| _componentsHash := ∅; _availableComponents := [];
     _registeredComponents := ∅; _registeredForNotifications := [];
     notifying := false; document_body := body; elements := els;
     random := draws; trace := [] |}.

(** The page changes the computed style of an element. *)
Definition set_style (e : elem) (display visibility : string)
    (offsetParent : option elem) (st : loader) : loader :=
  set_elements
    (<[e := {| el_class := el_class (get_element st e);
               el_componentized := el_componentized (get_element st e);
               el_display := display; el_visibility := visibility;
               el_offsetParent := offsetParent |}]>) st.

(** ** Reasoning about computations *)

(** [triple P m Q E]: from a state in [P], [m] ends normally in [Q] or by an
    exception in [E].  It says nothing when the model sees no end, which the
    totality lemmas below settle separately. *)
Definition triple {A} (P : loader → Prop) (m : M A)
    (Q : A → loader → Prop) (E : loader → Prop) : Prop :=
  ∀ st, P st →
    match m st with
    | Normal a st' => Q a st'
    | Throws _ st' => E st'
    | NoResult => True
    end.

(** An invariant of a computation holds wherever it ends. *)
Definition preserves {A} (I : loader → Prop) (m : M A) : Prop :=
  triple I m (λ _, I) I.

(** ** What a pass of notifyAll amounts to *)

(** The queued instance would be rendered by a pass over the queue. *)
Definition renderable (st : loader) (a : componentAPI) : bool :=
  bool_decide (is_Some (api_render a)) && isVisible st (api_context a).

Fixpoint first_raise (b : behaviour) : option string :=
  match b with
  | [] => None
  | CallNotifyAll :: b' => first_raise b'
  | Raise msg :: _ => Some msg
  end.

(** The [render] of the instance raises. *)
Definition raises (a : componentAPI) : bool :=
  match api_render a with
  | Some b => bool_decide (is_Some (first_raise b))
  | None => false
  end.

(** The render events of a pass over [items]. *)
Definition renders (st : loader) (items : list componentAPI) : list event :=
  List.map (λ a, EvRender (api_id a)) (List.filter (renderable st) items).

(** The indices a pass over [items] collects, counting from [i]. *)
Fixpoint indices_where {A} (P : A → bool) (l : list A) (i : nat) : list nat :=
  match l with
  | [] => []
  | x :: l' => (if P x then [i] else []) ++ indices_where P l' (S i)
  end.

Definition delete_all {A} (idxs : list nat) (q : list A) : list A :=
  foldl (λ q i, delete i q) q idxs.

(** How many times [render] of the instance [id] was invoked. *)
Definition render_count (id : string) (t : list event) : nat :=
  length (List.filter (λ ev, match ev with
                             | EvRender id' => String.eqb id id'
                             | _ => false
                             end) t).

(** The constructions attempted on [element]. *)
Definition constructions (element : elem) (t : list event) : list event :=
  List.filter (λ ev, match ev with
                     | EvConstruct _ e => Nat.eqb e element
                     | _ => false
                     end) t.

(** A call of [notifyAll] made while the flag is up hands the state back. *)
Definition guarded_noop (notify : M unit) : Prop :=
  ∀ st, notifying st = true → notify st = Normal tt st ∨ notify st = NoResult.

(** The instance built from what [new] yields, and the state in which
    [instantiate] enters it in the table. *)
Definition make_api (id : string) (element : elem) (m : members) : componentAPI :=
  {| api_id := id; api_context := element;
     api_init := m_init m; api_render := m_render m |}.

(** ** A small page, for running the loader *)

Module Page.

Definition shown (class : string) : element :=
  {| el_class := Some class; el_componentized := None;
     el_display := "block"; el_visibility := "visible";
     el_offsetParent := Some 0%nat |}.

(** [display:none] *)
Definition hidden (class : string) : element :=
  {| el_class := Some class; el_componentized := None;
     el_display := "none"; el_visibility := "visible";
     el_offsetParent := None |}.

(** A constructor in the style of [components.Knob]: it returns an api
    object with [init] and [render]. *)
Definition widget (init render : behaviour) : jsfunc :=
  FuncConstructor
    (λ _, CtorCompletes {| m_init := None; m_render := None |}
            (ReturnsObject {| m_init := Some init; m_render := Some render |})).

(** [function (element) { }]: a factory that returns nothing. *)
Definition returns_nothing : jsfunc :=
  FuncConstructor
    (λ _, CtorCompletes {| m_init := None; m_render := None |} ReturnsNothing).

Definition body : node := Node 0%nat [Node 1%nat []; Node 2%nat []].

(** One visible and one hidden element marked [js-component-widget]. *)
Definition els : gmap elem element :=
  <[1%nat := shown "js-component-widget"]>
    (<[2%nat := hidden "box js-component-widget"]> ∅).

Definition draws : list N := [5%N; 5%N; 7%N; 9%N].

Definition fresh : loader := empty_loader body els draws.

(** The page once it is scanned and [widget] is registered. *)
Definition scanned : loader :=
  Eval vm_compute in
    default fresh
      (final_state
         ((scan None >> register "widget" (widget [] [CallNotifyAll])) fresh)).

(** The page once [widget] is registered and the components are
    initialized. *)
Definition loaded : loader :=
  Eval vm_compute in
    default fresh
      (final_state
         ((scan None >> register "widget" (widget [] [CallNotifyAll]) >>
           initializeComponents 2) fresh)).


(** A queue of two visible instances, the first of which raises when
    rendered. *)
Definition raising : componentAPI :=
  make_api "i141" 1%nat {| m_init := None; m_render := Some [Raise "boom"] |}.

Definition quiet : componentAPI :=
  make_api "i142" 1%nat {| m_init := None; m_render := Some [] |}.

Definition blocking : loader :=
  set_registeredComponents (λ _, <["i141" := raising]> (<["i142" := quiet]> ∅))
    (set_registeredForNotifications (λ _, [raising; quiet]) fresh).

Definition blocked : loader :=
  set_notifying true (add_event (EvRender "i141") blocking).

End Page.

(** ** What the operations may change *)

(** One call of [notifyAll] seen from outside: the queue is kept or loses
    the instances it rendered, the trace gains render events of queued
    instances that were visible, the flag may stay up; with the flag up
    already, queue and trace are as they were. *)
Definition notify_rel (st st' : loader) : Prop :=
  ∃ (b : bool) (q' : list componentAPI) (evs : list event),
    st' = set_notifying b
            (set_registeredForNotifications (λ _, q') (append_trace evs st))
    ∧ (notifying st = true → b = true)
    ∧ (q' = _registeredForNotifications st
       ∨ q' = List.filter (λ a, negb (renderable st a)) (_registeredForNotifications st))
    ∧ (∀ ev, ev ∈ evs →
         ∃ a, a ∈ _registeredForNotifications st
              ∧ renderable st a = true ∧ ev = EvRender (api_id a))
    ∧ (notifying st = true → q' = _registeredForNotifications st ∧ evs = []).

(** The elements constructed on, in trace order. *)
Definition constructed (t : list event) : list elem :=
  omap (λ ev, match ev with
              | EvConstruct _ e => Some e
              | _ => None
              end) t.

(** What holds between a state and any later state of the session: flags
    stay, instances stay, a construction is only ever attempted on an element
    that was not flagged and is flagged from then on, a new instance belongs
    to such an element, is the only new one that does and has an identifier
    that begins with a letter, and a flag [notifying] that is up stays up. *)
Record evolves (st st' : loader) : Prop := {
  ev_flags : ∀ e, componentized st e = true → componentized st' e = true;
  ev_registered : ∀ id a,
    _registeredComponents st !! id = Some a →
    _registeredComponents st' !! id = Some a;
  ev_trace : ∃ delta,
    trace st' = trace st ++ delta
    ∧ (∀ e, e ∈ constructed delta →
            componentized st e = false ∧ componentized st' e = true)
    ∧ NoDup (constructed delta);
  ev_new : ∀ id a,
    _registeredComponents st' !! id = Some a →
    _registeredComponents st !! id = None →
    componentized st (api_context a) = false
    ∧ componentized st' (api_context a) = true;
  ev_letter : ∀ id a,
    _registeredComponents st' !! id = Some a →
    _registeredComponents st !! id = None →
    JsString.starts_with_letter id = true;
  ev_one : ∀ id1 a1 id2 a2,
    _registeredComponents st' !! id1 = Some a1 →
    _registeredComponents st !! id1 = None →
    _registeredComponents st' !! id2 = Some a2 →
    _registeredComponents st !! id2 = None →
    api_context a1 = api_context a2 → id1 = id2;
  ev_notifying : notifying st = true → notifying st' = true
}.

(** The buckets, and the elements a rescan from [contexts] selects, hold
    flagged elements only. *)
Definition all_instantiated (contexts : list (option node)) (st : loader) : Prop :=
  map_Forall (λ _ arr, Forall (λ e, componentized st e = true) arr)
    (_componentsHash st)
  ∧ Forall (λ context,
              Forall (λ e, componentized st e = true)
                (querySelectorAll st (default (document_body st) context)))
      contexts.

(** ** Sessions: the calls a page makes, one after the other *)

Inductive call :=
  | Register (sName : string) (oFunction : jsfunc)
  | Scan (context : option node)
  | InitializeComponents
  | CheckForNewComponents (context : option node)
  | NotifyAll
  | SetStyle (e : elem) (display visibility : string) (offsetParent : option elem).

Definition perform (fuel : nat) (c : call) : M unit :=
  match c with
  | Register sName oFunction => register sName oFunction
  | Scan context => scan context
  | InitializeComponents => initializeComponents fuel
  | CheckForNewComponents context => checkForNewComponents fuel context
  | NotifyAll => notifyAll fuel
  | SetStyle e display visibility offsetParent =>
      modify (set_style e display visibility offsetParent)
  end.

(** A call that raises leaves the state it reached; the page goes on from
    there. *)
Fixpoint session (fuel : nat) (calls : list call) (st : loader) : option loader :=
  match calls with
  | [] => Some st
  | c :: calls' =>
      match final_state (perform fuel c st) with
      | Some st' => session fuel calls' st'
      | None => None
      end
  end.

Definition after_construct (sName : string) (element : elem) (rest : list N)
    (st : loader) : loader :=
  set_random rest
    (add_event (EvConstruct sName element) (setAttribute_componentized element st)).

Definition after_register (sName : string) (element : elem) (rest : list N)
    (a : componentAPI) (st : loader) : loader :=
  set_registeredComponents (<[api_id a := a]>)
    (after_construct sName element rest st).

(** ** Which factory constructs on an element *)






(** The elements scanned so far under a component name. *)
Definition bucket (st : loader) (sName : string) : list elem :=
  default [] (_componentsHash st !! sName).


(** *** Marker tokens of the class attribute *)

(** [element.getAttribute("class").split(" ")] *)
Definition class_tokens (st : loader) (el : elem) : list string :=
  match el_class (get_element st el) with
  | Some c => JsString.split " " c
  | None => []
  end.

(** The component name [scan] reads off a class token: none when the prefix
    does not occur in it, else what follows its first thirteen characters. *)
Definition marker_of (sClass : string) : option string :=
  if -1 <? JsString.indexOf sClass COMPONENT_PREFIX
  then Some (JsString.slice sClass (String.length COMPONENT_PREFIX))
  else None.

(** The component names the class attribute of [el] carries marker tokens
    for, as [scan] reads them, in the order of the tokens. *)
Definition marker_names (st : loader) (el : elem) : list string :=
  omap marker_of (class_tokens st el).






Module TwoMarkers.

(** One element marked for the components [a] and [b]. *)
Definition page : loader :=
  empty_loader (Node 0%nat [Node 1%nat []])
    {[1%nat := Page.shown "js-component-a js-component-b"]} [5%N; 7%N].




End TwoMarkers.

(** ** Deferred rendering *)

Definition queued_ids (st : loader) : list string :=
  List.map api_id (_registeredForNotifications st).

(** What holds of the table, the queue and the trace in every state the
    loader reaches: an instance sits under its own identifier, the queued
    instances are distinct instances of the table, and only instances of the
    table were ever rendered. *)
Record well_formed (st : loader) : Prop := {
  wf_key : ∀ id a, _registeredComponents st !! id = Some a → api_id a = id;
  wf_nodup : NoDup (queued_ids st);
  wf_queue : ∀ a, a ∈ _registeredForNotifications st →
                  _registeredComponents st !! api_id a = Some a;
  wf_trace : ∀ id, EvRender id ∈ trace st → is_Some (_registeredComponents st !! id)
}.

(** During a pass that started in [st0]: every instance the pass created,
    [skip] apart, that has a [render] and whose element is not visible is in
    the queue and was not rendered. *)
Definition hidden_queued (st0 : loader) (skip : option string) (st : loader) : Prop :=
  ∀ id a,
    Some id ≠ skip →
    _registeredComponents st !! id = Some a →
    _registeredComponents st0 !! id = None →
    is_Some (api_render a) →
    isVisible st0 (api_context a) = false →
    a ∈ _registeredForNotifications st ∧ EvRender id ∉ trace st.

Record pass_inv (st0 : loader) (skip : option string) (st : loader) : Prop := {
  pi_wf : well_formed st;
  pi_visible : ∀ e, isVisible st e = isVisible st0 e;
  pi_registered : ∀ id a,
    _registeredComponents st0 !! id = Some a →
    _registeredComponents st !! id = Some a;
  pi_hidden : hidden_queued st0 skip st
}.

(** Between the entry of the instance [a] in the table and the decision to
    render or queue it. *)
Definition entered (st0 : loader) (a : componentAPI) (st : loader) : Prop :=
  pass_inv st0 (Some (api_id a)) st
  ∧ _registeredComponents st !! api_id a = Some a
  ∧ _registeredComponents st0 !! api_id a = None
  ∧ (api_id a ∉ queued_ids st)
  ∧ EvRender (api_id a) ∉ trace st.

(** While the instance [a], created visible, is being rendered. *)
Definition rendering (st0 : loader) (a : componentAPI) (st : loader) : Prop :=
  pass_inv st0 (Some (api_id a)) st
  ∧ _registeredComponents st !! api_id a = Some a
  ∧ isVisible st0 (api_context a) = true.



Module Deferred.

(** Two hidden elements marked [js-component-widget], in two parts of the
    page. *)
Definition left_part : node := Node 10%nat [Node 1%nat []].
Definition body : node := Node 0%nat [left_part; Node 20%nat [Node 2%nat []]].
Definition els : gmap elem element :=
  <[1%nat := Page.hidden "js-component-widget"]>
    (<[2%nat := Page.hidden "js-component-widget"]> ∅).
Definition page : loader := empty_loader body els [5%N; 7%N].




Definition run (calls : list call) : loader := default page (session 2 calls page).






(** An instance whose [init] and [render] do nothing. *)
Definition quiet (id : string) (element : elem) : componentAPI :=
  make_api id element {| m_init := Some []; m_render := Some [] |}.

(** Two instances queued, the element of the first shown since. *)
Definition one_shown : loader :=
  Eval vm_compute in
    run [Scan None; Register "widget" (Page.widget [] []); InitializeComponents;
         SetStyle 1%nat "block" "visible" (Some 0%nat)].




End Deferred.

(** ** The knob widget: reading the configuration in [init]

    From [src/component-knob.js].  What [JSON.parse] returns is seen through
    what [extend] asks of it: whether it is falsy, and its own enumerable
    properties.  The values of properties and [JSON.parse] itself belong to
    the host and are parameters. *)

Module Knob.
Section Host.

Variable value : Type.
Variable of_string : string → value.

Record parsed := {
  falsy : bool;
  own_properties : gmap string value
}.

(** [JSON.parse] on a text; [None] is a [SyntaxError]. *)
Variable JSON_parse : string → option parsed.

(** The canvas element the component is constructed on. *)
Record canvas := {
  data_canvas_settings : option string;        (* attribute data-canvas-settings *)
  getContext_2d : option (gmap string value)   (* own properties of the context; None is null *)
}.

(** The variables of the component that [init] assigns. *)
Record knob := {
  ctx : option (gmap string value);
  settings : gmap string value
}.

Inductive completion :=
  | Done (k : knob)
  | Raised (e : exn) (k : knob).

Definition created : knob := {| ctx := None; settings := ∅ |}.

Definition defaults : gmap string value :=
  list_to_map
    [("radius", of_string "75"); ("lineWidth", of_string "10");
     ("lineCap", of_string "round"); ("strokeStyle", of_string "#99CC33");
     ("fillStyle", of_string "#666666"); ("font", of_string "52px sans-serif");
     ("textAlign", of_string "center")].

(** The value of [context.getAttribute(DATA_SETTINGS) || {}]. *)
Inductive settings_source :=
  | Text (s : string)
  | EmptyObject.

Definition read_settings (c : canvas) : settings_source :=
  match data_canvas_settings c with
  | Some s => if String.eqb s "" then EmptyObject else Text s
  | None => EmptyObject
  end.

(** [JSON.parse] converts its argument to a string first. *)
Definition ToString (v : settings_source) : string :=
  match v with
  | Text s => s
  | EmptyObject => "[object Object]"
  end.

(** [extend(out, ...)]: falsy arguments are passed over, the own properties
    of the others are copied over in turn. *)
Definition extend (out : gmap string value) (arguments : list parsed)
    : gmap string value :=
  foldl (λ out a, if falsy a then out else own_properties a ∪ out) out arguments.

(** [setCanvasProps]: the settings that name an own property of the context
    are copied to it. *)
Definition setCanvasProps (settings : gmap string value) (ctx : gmap string value)
    : gmap string value :=
  map_imap (λ prop v, Some (default v (settings !! prop))) ctx.

Definition init (c : canvas) (k : knob) : completion :=
  match getContext_2d c with
  | None => Done {| ctx := None; settings := settings k |}
  | Some context =>
      let k := {| ctx := Some context; settings := settings k |} in
      match JSON_parse (ToString (read_settings c)) with
      | None => Raised SyntaxError k
      | Some ctxSettings =>
          let merged :=
            extend (settings k)
              [{| falsy := false; own_properties := defaults |}; ctxSettings] in
          Done {| ctx := Some (setCanvasProps merged context); settings := merged |}
      end
  end.

End Host.

(** A host to run [init] on: values are strings, and the parser knows the
    texts used below. *)
Definition quoted (s : string) : string :=
  String (ascii_of_nat 34) s +:+ String (ascii_of_nat 34) EmptyString.

(** The text of an object with the one member [radius], of value [40]. *)
Definition radius_40 : string :=
  "{" +:+ quoted "radius" +:+ ":" +:+ quoted "40" +:+ "}".

Definition toy_parse (s : string) : option (parsed string) :=
  if String.eqb s "{}" then Some {| falsy := false; own_properties := ∅ |}
  else if String.eqb s radius_40
  then Some {| falsy := false; own_properties := {["radius" := "40"]} |}
  else None.

Definition bare_canvas : canvas string :=
  {| data_canvas_settings := None; getContext_2d := Some {["lineWidth" := "1"]} |}.

End Knob.

(** ** A blocked loader *)

(** [st] had the flag [notifying] up; in the later state [s] it is still up,
    the instances that were queued are still queued, in their places, and
    none of them was rendered since. *)
Record held (st s : loader) : Prop := {
  held_flag : notifying s = true;
  held_queue : ∃ extra,
    _registeredForNotifications s = _registeredForNotifications st ++ extra;
  held_renders : ∀ b, b ∈ _registeredForNotifications st →
    render_count (api_id b) (trace s) = render_count (api_id b) (trace st)
}.

(** ** Further notions *)

(** How often [sName] is among [names]. *)
Definition occurrences (sName : string) (names : list string) : nat :=
  length (List.filter (String.eqb sName) names).

(** What a scan of the elements [l] adds to the bucket of [sName]: each
    element that is not flagged, once for every class token that carries the
    name. *)
Definition scanned_under (st : loader) (sName : string) (l : list elem) : list elem :=
  flat_map (λ e, if componentized st e then []
                 else replicate (occurrences sName (marker_names st e)) e) l.

(** No selected element that is not flagged carries a marker token named
    after a member of [Object.prototype]. *)
Definition scan_safe (st : loader) (l : list elem) : bool :=
  forallb (λ e, componentized st e
                || forallb (λ sName, negb (inherited_by_object sName))
                     (marker_names st e)) l.

(** No bucket is stored under the name of a member of [Object.prototype]. *)
Definition own_buckets (st : loader) : Prop :=
  ∀ sName, inherited_by_object sName = true → _componentsHash st !! sName = None.

(** A name that is no property of an empty array: not [length], no member
    of [Array.prototype] or [Object.prototype]. *)
Definition plain_name (sName : string) : Prop :=
  sName ≠ "length" ∧ (sName ∉ Array_prototype_names)
  ∧ (sName ∉ Object_prototype_names).

Module Prototype.
(** An element marked [js-component-constructor], ahead of an ordinary
    widget. *)
Definition page : loader :=
  empty_loader (Node 0%nat [Node 1%nat []; Node 2%nat []])
    (<[1%nat := Page.shown "js-component-constructor"]>
       (<[2%nat := Page.shown "js-component-widget"]> ∅)) [5%N].
End Prototype.

(** During a pass that started in [st0]: every instance the pass created,
    [skip] apart, that has a [render] and whose element is visible was
    rendered once and is not in the queue. *)
Definition shown_rendered (st0 : loader) (skip : option string) (s : loader) : Prop :=
  ∀ id a,
    Some id ≠ skip →
    _registeredComponents s !! id = Some a →
    _registeredComponents st0 !! id = None →
    is_Some (api_render a) →
    isVisible st0 (api_context a) = true →
    (id ∉ queued_ids s) ∧ render_count id (trace s) = 1%nat.


(** The apostrophe does not occur in [s]. *)
Fixpoint quote_free (s : string) : bool :=
  match s with
  | EmptyString => true
  | String c s' => negb (Ascii.eqb c "'") && quote_free s'
  end.

Module KnobHost.

End KnobHost.

(** ** The knob widget: the animation loop

    From [src/component-knob.js], [timeElapsed], [tick] and the timer
    callback of [render].  Times are what [Date.now()] returns, integers in
    milliseconds, so [Math.round] leaves them as they are.  The host decides
    when a frame that was asked for runs; it is given by the list of the
    times at which the successive frames run. *)

Module Animation.

Definition ANIMATION_DURATION : Z := 600.

(** The variables [isStarted] and [startedTime] of the component; the
    initial [null] of [startedTime] counts as 0 in a subtraction. *)
Record timing := { isStarted : bool; startedTime : Z }.

Definition created : timing := {| isStarted := false; startedTime := 0 |}.

(** [timeElapsed()] when [Date.now()] returns [now]. *)
Definition timeElapsed (now : Z) (k : timing) : Z :=
  if negb (isStarted k) then 0 else now - startedTime k.

(** [tick()]: the progress it hands to [draw], and whether it asked for
    another frame before. *)
Definition tick (now : Z) (k : timing) : Z * bool :=
  let timeProgress := timeElapsed now k in
  (timeProgress, isStarted k && (timeProgress <? ANIMATION_DURATION)).

(** The timer callback of [render], run at the time [now]: it asks for the
    first frame and starts the clock. *)
Definition start (now : Z) : timing := {| isStarted := true; startedTime := now |}.

(** The frames run from a request on, at the times [clock]: the progress
    each hands to [draw].  A frame runs only if it was asked for. *)
Fixpoint frames (clock : list Z) (k : timing) : list Z :=
  match clock with
  | [] => []
  | now :: later =>
      let '(timeProgress, again) := tick now k in
      timeProgress :: (if again then frames later k else [])
  end.

End Animation.

(** * Facts *)

(** ** Strings *)

Section JsStringFacts.
Import JsString.

Lemma prefix_app (p s : string) : String.prefix p (p +:+ s) = true.
Proof.
  induction p as [|c p IH]; simpl.
  - by destruct s.
  - destruct (ascii_dec c c) as [_|Hne]; [exact IH | by destruct Hne].
Qed.

Lemma indexOf_from_prefix (p s : string) (i : Z) :
  String.prefix p s = true → indexOf_from p s i = i.
Proof. intros H. destruct s; unfold indexOf_from; by rewrite H. Qed.

Lemma indexOf_app (p s : string) : indexOf (p +:+ s) p = 0.
Proof. apply indexOf_from_prefix, prefix_app. Qed.

Lemma slice_app (p s : string) : slice (p +:+ s) (String.length p) = s.
Proof. induction p as [|c p IH]; simpl; [by destruct s | exact IH]. Qed.

Lemma indexOf_from_lower (p s : string) (i : Z) :
  indexOf_from p s i = -1 ∨ i <= indexOf_from p s i.
Proof.
  revert i; induction s as [|c s IH]; intros i; unfold indexOf_from;
    fold indexOf_from.
  - destruct (String.prefix p ""); [right; lia | by left].
  - destruct (String.prefix p (String c s)); [right; lia|].
    destruct (IH (i + 1)) as [->|H]; [by left | right; lia].
Qed.

End JsStringFacts.

(** ** Rules for triples *)

Lemma triple_ret {A} (P : loader → Prop) (a : A) (Q : A → loader → Prop) E :
  (∀ st, P st → Q a st) → triple P (ret a) Q E.
Proof. intros H st HP. by apply H. Qed.

Lemma triple_throw {A} (P : loader → Prop) (e : exn) (Q : A → loader → Prop)
    (E : loader → Prop) :
  (∀ st, P st → E st) → triple P (throw e) Q E.
Proof. intros H st HP. by apply H. Qed.

Lemma triple_modify (P : loader → Prop) (f : loader → loader) Q E :
  (∀ st, P st → Q tt (f st)) → triple P (modify f) Q E.
Proof. intros H st HP. by apply H. Qed.

Lemma triple_bind {A B} (P : loader → Prop) (m : M A) (k : A → M B)
    (R : A → loader → Prop) Q E :
  triple P m R E → (∀ a, triple (R a) (k a) Q E) → triple P (bind m k) Q E.
Proof.
  intros Hm Hk st HP. unfold bind. specialize (Hm st HP).
  destruct (m st) as [a st'| |]; [exact (Hk a st' Hm) | done | done].
Qed.

(** Reading the state tells the continuation which state it runs in. *)
Lemma triple_get {A} (P : loader → Prop) (k : loader → M A) Q E :
  (∀ st0, triple (λ st, P st ∧ st = st0) (k st0) Q E) →
  triple P (bind get k) Q E.
Proof. intros H st HP. unfold bind, get. by apply (H st st). Qed.

Lemma triple_weaken {A} (P P' : loader → Prop) (m : M A)
    (Q Q' : A → loader → Prop) (E E' : loader → Prop) :
  triple P' m Q' E' →
  (∀ st, P st → P' st) → (∀ a st, Q' a st → Q a st) → (∀ st, E' st → E st) →
  triple P m Q E.
Proof.
  intros H HP HQ HE st Hst. specialize (H st (HP st Hst)).
  destruct (m st); auto.
Qed.

Lemma triple_forEach {A} (I : loader → Prop) (E : loader → Prop)
    (callback : A → M unit) (l : list A) :
  (∀ x, x ∈ l → triple I (callback x) (λ _, I) E) →
  triple I (forEach callback l) (λ _, I) E.
Proof.
  induction l as [|x l IH]; intros H; simpl.
  - by apply triple_ret.
  - eapply triple_bind; [apply H, list_elem_of_here|].
    intros u. apply IH. intros y Hy. by apply H, list_elem_of_further.
Qed.



(** ** Replaying the queue *)

Lemma append_trace_assoc (a b : list event) (st : loader) :
  append_trace b (append_trace a st) = append_trace (a ++ b) st.
Proof. unfold append_trace; simpl. f_equal. by rewrite <- app_assoc. Qed.

Lemma append_trace_nil (st : loader) : append_trace [] st = st.
Proof. destruct st; unfold append_trace; simpl. f_equal. apply app_nil_r. Qed.

Lemma indices_where_S {A} (P : A → bool) (l : list A) (i : nat) :
  indices_where P l (S i) = List.map S (indices_where P l i).
Proof.
  revert i; induction l as [|x l IH]; intros i; simpl; [done|].
  rewrite List.map_app, IH. by destruct (P x).
Qed.

Lemma delete_all_app {A} (a b : list nat) (q : list A) :
  delete_all (a ++ b) q = delete_all b (delete_all a q).
Proof. apply foldl_app. Qed.

Lemma delete_all_shift {A} (js : list nat) (x : A) (q : list A) :
  delete_all (List.map S js) (x :: q) = x :: delete_all js q.
Proof.
  revert q; induction js as [|j js IH]; intros q; [done|].
  simpl. apply IH.
Qed.

(** Popping the collected indices and splicing each one away leaves the
    instances that were not rendered, in their order. *)
Lemma delete_all_indices {A} (P : A → bool) (l : list A) :
  delete_all (rev (indices_where P l 0)) l = List.filter (λ x, negb (P x)) l.
Proof.
  induction l as [|x l IH]; [done|].
  cbn [indices_where List.filter].
  rewrite indices_where_S, rev_app_distr, delete_all_app, <- List.map_rev,
    delete_all_shift, IH.
  by destruct (P x).
Qed.

Lemma splice_popped_spec (toRemove : list nat) (st : loader) :
  splice_popped toRemove st
  = Normal tt (set_registeredForNotifications (delete_all (rev toRemove)) st).
Proof.
  unfold splice_popped. generalize (rev toRemove) as js. intros js.
  revert st; induction js as [|j js IH]; intros st.
  - simpl. unfold ret. f_equal. by destruct st.
  - cbn [forEach]. unfold bind, modify. rewrite IH. f_equal.
Qed.

Lemma notifyAll_guarded (fuel : nat) (st : loader) :
  notifying st = true → notifyAll (S fuel) st = Normal tt st.
Proof. intros H. cbn [notifyAll]. unfold bind, get. by rewrite H. Qed.

Lemma notifyAll_guarded_noop (fuel : nat) : guarded_noop (notifyAll fuel).
Proof.
  intros st H. destruct fuel; [by right | left; by apply notifyAll_guarded].
Qed.

Lemma run_behaviour_guarded (notify : M unit) (b : behaviour) (st : loader) :
  guarded_noop notify → notifying st = true →
  match run_behaviour notify b st with
  | Normal _ st' => st' = st ∧ first_raise b = None
  | Throws e st' => st' = st ∧ ∃ msg, first_raise b = Some msg ∧ e = ThrowString msg
  | NoResult => True
  end.
Proof.
  intros Hn Hst. unfold run_behaviour.
  induction b as [|[|msg] b IH]; cbn [forEach run_effect first_raise].
  - done.
  - unfold bind. destruct (Hn st Hst) as [-> | ->]; [exact IH | done].
  - unfold bind, throw. eauto.
Qed.

Lemma renderable_append_trace (evs : list event) (st : loader) (a : componentAPI) :
  renderable (append_trace evs st) a = renderable st a.
Proof. done. Qed.

Lemma renders_append_trace (evs : list event) (st : loader) (l : list componentAPI) :
  renders (append_trace evs st) l = renders st l.
Proof. done. Qed.

Lemma renderable_render (st : loader) (a : componentAPI) :
  renderable st a = true → ∃ b, api_render a = Some b.
Proof.
  unfold renderable. intros [H _]%andb_prop.
  apply bool_decide_eq_true in H. by destruct H as [b Hb]; exists b.
Qed.

(** The loop of a pass, with the flag up: it renders the instances that are
    visible, in queue order, touches nothing but the trace, and stops at the
    first [render] that raises. *)
Lemma notify_each_spec (notify : M unit) (items : list componentAPI) (i : nat)
    (toRemove : list nat) (st : loader) :
  guarded_noop notify → notifying st = true →
  match notify_each notify items i toRemove st with
  | Normal toRemove' st' =>
      st' = append_trace (renders st items) st
      ∧ toRemove' = toRemove ++ indices_where (renderable st) items i
      ∧ ∀ a, a ∈ items → renderable st a = true → raises a = false
  | Throws e st' =>
      ∃ l1 x l2 msg, items = l1 ++ x :: l2
        ∧ (∀ a, a ∈ l1 → renderable st a = true → raises a = false)
        ∧ renderable st x = true ∧ raises x = true
        ∧ st' = append_trace (renders st l1 ++ [EvRender (api_id x)]) st
        ∧ e = ThrowString msg
  | NoResult => True
  end.
Proof.
  intros Hn. revert i toRemove st.
  induction items as [|a items IH]; intros i toRemove st Hst.
  - simpl. split; [by rewrite append_trace_nil|]. split; [by rewrite app_nil_r|].
    intros a Ha. by apply elem_of_nil in Ha.
  - cbn [notify_each]. unfold bind at 1. unfold get at 1.
    fold (renderable st a). destruct (renderable st a) eqn:Hr.
    + destruct (renderable_render _ _ Hr) as [b Hb].
      unfold bind at 1. unfold call_render. rewrite Hb.
      unfold bind at 1. unfold modify at 1.
      pose proof (run_behaviour_guarded notify b (add_event (EvRender (api_id a)) st) Hn Hst) as Hrun.
      destruct (run_behaviour notify b (add_event (EvRender (api_id a)) st))
        as [[] s1|e s1|]; [| |done].
      * destruct Hrun as [-> Hnone].
        specialize (IH (S i) (toRemove ++ [i]) (add_event (EvRender (api_id a)) st) Hst).
        destruct (notify_each notify items (S i) (toRemove ++ [i])
                    (add_event (EvRender (api_id a)) st)) as [tr' s2|e s2|]; [| |done].
        -- destruct IH as (-> & -> & Hno). unfold add_event.
           rewrite append_trace_assoc. unfold renders. cbn [List.filter].
           rewrite Hr. cbn [List.map]. split; [done|].
           split; [cbn [indices_where]; rewrite Hr; by rewrite <- app_assoc|].
           intros a' [->|Ha']%elem_of_cons Hr'.
           ++ unfold raises. rewrite Hb, Hnone. done.
           ++ by apply Hno.
        -- destruct IH as (l1 & x & l2 & msg & -> & Hno & Hx & Hxr & -> & ->).
           exists (a :: l1), x, l2, msg. split; [done|].
           split.
           { intros a' [->|Ha']%elem_of_cons Hr'.
             - unfold raises. rewrite Hb, Hnone. done.
             - by apply Hno. }
           split; [done|]. split; [done|]. split; [|done].
           unfold add_event. rewrite append_trace_assoc.
           unfold renders. cbn [List.filter]. rewrite Hr. done.
      * destruct Hrun as [-> (msg & Hmsg & ->)].
        exists [], a, items, msg. split; [done|].
        split; [intros a' Ha'; by apply elem_of_nil in Ha'|].
        split; [done|]. split; [unfold raises; rewrite Hb, Hmsg; done|]. done.
    + specialize (IH (S i) toRemove st Hst).
      destruct (notify_each notify items (S i) toRemove st) as [tr' s2|e s2|]; [| |done].
      * destruct IH as (-> & -> & Hno). unfold renders. cbn [List.filter indices_where].
        rewrite Hr. split; [done|]. split; [done|].
        intros a' [->|Ha']%elem_of_cons Hr'; [congruence | by apply Hno].
      * destruct IH as (l1 & x & l2 & msg & -> & Hno & Hx & Hxr & -> & ->).
        exists (a :: l1), x, l2, msg. split; [done|].
        split.
        { intros a' [->|Ha']%elem_of_cons Hr'; [congruence | by apply Hno]. }
        split; [done|]. split; [done|]. split; [|done].
        unfold renders. cbn [List.filter]. rewrite Hr. done.
Qed.

Lemma run_behaviour_total (fuel : nat) (b : behaviour) (st : loader) :
  notifying st = true → run_behaviour (notifyAll (S fuel)) b st ≠ NoResult.
Proof.
  intros Hst. unfold run_behaviour.
  induction b as [|[|msg] b IH]; cbn [forEach run_effect]; [done| |done].
  unfold bind. by rewrite notifyAll_guarded.
Qed.

Lemma notify_each_total (fuel : nat) (items : list componentAPI) (i : nat)
    (toRemove : list nat) (st : loader) :
  notifying st = true →
  notify_each (notifyAll (S fuel)) items i toRemove st ≠ NoResult.
Proof.
  revert i toRemove st.
  induction items as [|a items IH]; intros i toRemove st Hst; [done|].
  cbn [notify_each]. unfold bind at 1. unfold get at 1.
  destruct (bool_decide (is_Some (api_render a)) && isVisible st (api_context a)) eqn:Hr;
    [|by apply IH].
  destruct (renderable_render st a Hr) as [b Hb].
  unfold bind at 1. unfold call_render. rewrite Hb.
  unfold bind at 1. unfold modify at 1.
  pose proof (run_behaviour_total fuel b (add_event (EvRender (api_id a)) st) Hst) as Ht.
  pose proof (run_behaviour_guarded _ b (add_event (EvRender (api_id a)) st)
                (notifyAll_guarded_noop (S fuel)) Hst) as Hrun.
  destruct (run_behaviour (notifyAll (S fuel)) b (add_event (EvRender (api_id a)) st))
    as [[] s1|e s1|]; [|done|by destruct Ht].
  destruct Hrun as [-> _]. by apply IH.
Qed.

(** What one call of [notifyAll] does. *)
Lemma notifyAll_spec (fuel : nat) (st : loader) :
  match notifyAll fuel st with
  | Normal _ st' =>
      if notifying st then st' = st
      else st' = set_registeredForNotifications
                   (List.filter (λ a, negb (renderable st a)))
                   (append_trace (renders st (_registeredForNotifications st)) st)
           ∧ ∀ a, a ∈ _registeredForNotifications st →
                  renderable st a = true → raises a = false
  | Throws e st' =>
      notifying st = false
      ∧ ∃ l1 x l2 msg, _registeredForNotifications st = l1 ++ x :: l2
          ∧ (∀ a, a ∈ l1 → renderable st a = true → raises a = false)
          ∧ renderable st x = true ∧ raises x = true
          ∧ st' = set_notifying true
                    (append_trace (renders st l1 ++ [EvRender (api_id x)]) st)
          ∧ e = ThrowString msg
  | NoResult => True
  end.
Proof.
  destruct fuel as [|fuel]; [done|].
  cbn [notifyAll]. unfold bind at 1. unfold get at 1.
  destruct (notifying st) eqn:Hn; cbn [negb]; [done|].
  unfold bind at 1. unfold modify at 1.
  unfold bind at 1. unfold get at 1.
  unfold bind at 1.
  pose proof (notify_each_spec (notifyAll fuel)
                (_registeredForNotifications (set_notifying true st)) 0 []
                (set_notifying true st) (notifyAll_guarded_noop fuel) eq_refl) as Hspec.
  destruct (notify_each (notifyAll fuel)
              (_registeredForNotifications (set_notifying true st)) 0 []
              (set_notifying true st)) as [tr' s1|e s1|]; [| |done].
  - destruct Hspec as (-> & -> & Hno).
    unfold bind. rewrite splice_popped_spec. unfold modify.
    split; [|exact Hno].
    destruct st; simpl in *; subst. unfold set_registeredForNotifications,
      set_notifying, append_trace; simpl. f_equal.
    apply delete_all_indices.
  - destruct Hspec as (l1 & x & l2 & msg & Hq & Hno & Hx & Hxr & -> & ->).
    split; [done|]. exists l1, x, l2, msg. auto 10.
Qed.

Lemma notifyAll_total (fuel : nat) (st : loader) :
  notifyAll (S (S fuel)) st ≠ NoResult.
Proof.
  generalize (eq_refl (S fuel)). generalize (S fuel) at 1 3. intros fuel' Hfuel.
  cbn [notifyAll]. subst fuel'. unfold bind at 1. unfold get at 1.
  destruct (notifying st) eqn:Hn; cbn [negb]; [done|].
  unfold bind at 1. unfold modify at 1.
  unfold bind at 1. unfold get at 1.
  unfold bind at 1.
  pose proof (notify_each_total fuel
                (_registeredForNotifications (set_notifying true st)) 0 []
                (set_notifying true st) eq_refl) as Ht.
  destruct (notify_each (notifyAll (S fuel))
              (_registeredForNotifications (set_notifying true st)) 0 []
              (set_notifying true st)) as [tr' s1|e s1|]; [|done|by destruct Ht].
  unfold bind. by rewrite splice_popped_spec.
Qed.

(** With no [render] that raises among the instances it would render, a
    call of [notifyAll] returns, having rendered the visible instances and
    kept the others queued. *)
Lemma notifyAll_normal (fuel : nat) (st : loader) :
  notifying st = false →
  (∀ a, a ∈ _registeredForNotifications st →
        renderable st a = true → raises a = false) →
  notifyAll (S (S fuel)) st
  = Normal tt (set_registeredForNotifications
                 (List.filter (λ a, negb (renderable st a)))
                 (append_trace (renders st (_registeredForNotifications st)) st)).
Proof.
  intros Hn Hno.
  pose proof (notifyAll_spec (S (S fuel)) st) as Hspec.
  pose proof (notifyAll_total fuel st) as Ht.
  destruct (notifyAll (S (S fuel)) st) as [[] st'|e st'|]; [| |by destruct Ht].
  - rewrite Hn in Hspec. by destruct Hspec as [-> _].
  - destruct Hspec as (_ & l1 & x & l2 & msg & Hq & _ & Hx & Hxr & _).
    rewrite Hno in Hxr; [done| |done]. rewrite Hq. apply elem_of_app. right. left.
Qed.

(** ** Re-entrant calls of notifyAll *)

Lemma run_behaviour_nested_skip (fuel : nat) (b : behaviour) (st : loader) :
  notifying st = true →
  run_behaviour (notifyAll (S fuel)) b st = run_behaviour (ret tt) b st.
Proof.
  intros Hst. unfold run_behaviour.
  induction b as [|[|msg] b IH]; cbn [forEach run_effect]; [done| |done].
  unfold bind. rewrite notifyAll_guarded by done. exact IH.
Qed.

Lemma run_behaviour_skip_state (b : behaviour) (st : loader) :
  match run_behaviour (ret tt) b st with
  | Normal _ st' => st' = st
  | Throws _ st' => st' = st
  | NoResult => False
  end.
Proof.
  unfold run_behaviour.
  induction b as [|[|msg] b IH]; cbn [forEach run_effect]; [done|exact IH|done].
Qed.

Lemma notify_each_nested_skip (fuel : nat) (items : list componentAPI) (i : nat)
    (toRemove : list nat) (st : loader) :
  notifying st = true →
  notify_each (notifyAll (S fuel)) items i toRemove st
  = notify_each (ret tt) items i toRemove st.
Proof.
  revert i toRemove st.
  induction items as [|a items IH]; intros i toRemove st Hst; [done|].
  cbn [notify_each]. unfold bind, get.
  destruct (bool_decide (is_Some (api_render a)) && isVisible st (api_context a));
    [|by apply IH].
  unfold call_render.
  destruct (api_render a) as [b|]; [|done].
  unfold bind, modify.
  rewrite run_behaviour_nested_skip by done.
  pose proof (run_behaviour_skip_state b (add_event (EvRender (api_id a)) st)) as Hs.
  destruct (run_behaviour (ret tt) b (add_event (EvRender (api_id a)) st))
    as [[] s1|e s1|]; [|done|done].
  subst s1. by apply IH.
Qed.

Lemma notifyAll_S (fuel : nat) (st : loader) :
  notifyAll (S fuel) st
  = (let! st := get in
     if negb (notifying st) then
       modify (set_notifying true) >>
       let! st := get in
       let! toRemove :=
         notify_each (notifyAll fuel) (_registeredForNotifications st) 0 [] in
       splice_popped toRemove >>
       modify (set_notifying false)
     else ret tt) st.
Proof. reflexivity. Qed.

(** A nesting budget of two is as good as any larger one: calls nested
    deeper than that do nothing. *)
Lemma notifyAll_fuel (fuel : nat) (st : loader) :
  notifyAll (S (S fuel)) st = notifyAll 2 st.
Proof.
  rewrite (notifyAll_S (S fuel)), (notifyAll_S 1). unfold bind, get, modify.
  destruct (notifying st); cbn [negb]; [done|].
  by rewrite (notify_each_nested_skip fuel), (notify_each_nested_skip 0).
Qed.

(** C7. A call of [notifyAll] made while another one is in progress (the
    flag [notifying] is up) returns the state as it received it: no [render]
    is invoked, nothing leaves the queue.  Hence the loop of the call in
    progress runs exactly as if the [render] callbacks made no such call. *)
Theorem notifyAll_reentrant_noop (fuel : nat) (st : loader) :
  notifying st = true →
  notifyAll (S fuel) st = Normal tt st
  ∧ ∀ items i toRemove,
      notify_each (notifyAll (S fuel)) items i toRemove st
      = notify_each (ret tt) items i toRemove st.
Proof.
  intros Hst. split; [by apply notifyAll_guarded|].
  intros items i toRemove. by apply notify_each_nested_skip.
Qed.

Lemma notifyAll_reentrant_noop_witness :
  (notifying (set_notifying true Page.fresh) = true
   ∧ notifyAll 1 (set_notifying true Page.fresh)
     = Normal tt (set_notifying true Page.fresh))
  ∧ notifying (set_notifying true Page.blocking) = true
  ∧ _registeredForNotifications (set_notifying true Page.blocking)
    = [Page.raising; Page.quiet]
  ∧ renderable (set_notifying true Page.blocking) Page.raising = true
  ∧ notifyAll 1 (set_notifying true Page.blocking)
    = Normal tt (set_notifying true Page.blocking).
Proof.
  split.
  - split; [reflexivity|].
    apply (notifyAll_reentrant_noop 0 (set_notifying true Page.fresh)). reflexivity.
  - split; [reflexivity|]. split; [reflexivity|]. split; [reflexivity|].
    apply (notifyAll_reentrant_noop 0 (set_notifying true Page.blocking)). reflexivity.
Defined.

(** ** register *)

(** Whether [register] raises depends on the name being a property of the
    array, not on the names registered so far. *)
Lemma register_outcome (sName : string) (oFunction : jsfunc) (st : loader) :
  register sName oFunction st
  = if array_typeof_undefined (_availableComponents st) sName
    then Normal tt (set_availableComponents
                      (λ a, a ++ [{| name := sName; func := oFunction |}]) st)
    else Throws (ThrowString (duplicate_message sName)) st.
Proof.
  unfold register, bind, get.
  by destruct (array_typeof_undefined (_availableComponents st) sName).
Qed.

(** A first registration under the name of an array property raises. *)
Lemma register_length_raises (oFunction : jsfunc) (st : loader) :
  register "length" oFunction st
  = Throws (ThrowString (duplicate_message "length")) st.
Proof.
  rewrite register_outcome. unfold array_typeof_undefined.
  replace (String.eqb "length" "length") with true by reflexivity.
  by rewrite orb_true_r.
Qed.

Lemma is_index_below_S (len : nat) (key : string) :
  is_index_below (S len) key
  = is_index_below len key || String.eqb key (JsString.of_number (N.of_nat len)).
Proof.
  unfold is_index_below. rewrite seq_S, existsb_app. cbn [existsb plus].
  by rewrite orb_false_r.
Qed.

(** Appending a descriptor makes one more name defined: the decimal
    spelling of the index it is stored at. *)
Lemma array_typeof_undefined_push {A} (arr : list A) (x : A) (key : string) :
  key ≠ JsString.of_number (N.of_nat (length arr)) →
  array_typeof_undefined (arr ++ [x]) key = array_typeof_undefined arr key.
Proof.
  intros Hne. unfold array_typeof_undefined.
  rewrite length_app, Nat.add_1_r, is_index_below_S.
  by destruct (String.eqb_spec key (JsString.of_number (N.of_nat (length arr))));
    [|rewrite orb_false_r].
Qed.

(** C3. The claim fails on the code: the lookup [_availableComponents[sName]]
    is made in the array of descriptors, which holds them at numeric
    indices, so it does not see the names registered so far.  Whenever a
    name is accepted once it is accepted again, and the table then holds two
    descriptors of that name; the one exception is a name that spells the
    index at which its first descriptor was stored. *)
Theorem duplicate_registration_accepted (sName : string) (f g : jsfunc)
    (st st1 : loader) :
  register sName f st = Normal tt st1 →
  sName ≠ JsString.of_number (N.of_nat (length (_availableComponents st))) →
  ∃ st2, register sName g st1 = Normal tt st2
    ∧ _availableComponents st2
      = _availableComponents st
        ++ [{| name := sName; func := f |}; {| name := sName; func := g |}].
Proof.
  rewrite !register_outcome.
  destruct (array_typeof_undefined (_availableComponents st) sName) eqn:Hu; [|done].
  intros [= <-] Hne. cbn [_availableComponents set_availableComponents].
  rewrite array_typeof_undefined_push, Hu by done.
  eexists. split; [done|]. cbn. by rewrite <- app_assoc.
Qed.

Lemma duplicate_registration_accepted_witness :
  register "knob" (Page.widget [] []) Page.fresh
  = Normal tt (set_availableComponents
                 (λ _, [{| name := "knob"; func := Page.widget [] [] |}]) Page.fresh)
  ∧ ∃ st2,
      register "knob" Page.returns_nothing
        (set_availableComponents
           (λ _, [{| name := "knob"; func := Page.widget [] [] |}]) Page.fresh)
      = Normal tt st2
      ∧ _availableComponents st2
        = [{| name := "knob"; func := Page.widget [] [] |};
           {| name := "knob"; func := Page.returns_nothing |}].
Proof.
  split; [reflexivity|].
  apply (duplicate_registration_accepted "knob" (Page.widget [] [])
           Page.returns_nothing Page.fresh); [reflexivity|discriminate].
Defined.

(** The exception: on a fresh loader, the name ["0"] is refused the second
    time. *)
Lemma register_index_name_refused (f g : jsfunc) (body : node)
    (els : gmap elem element) (draws : list N) :
  (register "0" f >> register "0" g) (empty_loader body els draws)
  = Throws (ThrowString (duplicate_message "0"))
      (set_availableComponents (λ _, [{| name := "0"; func := f |}])
         (empty_loader body els draws)).
Proof. reflexivity. Qed.

(** ** Identifiers *)

Lemma draw_id_fresh (table : gmap string componentAPI) (draws : list N)
    (id : string) (rest : list N) :
  draw_id table draws = Some (id, rest) →
  table !! id = None
  ∧ ∃ r, id = "i14" +:+ JsString.of_number r ∧ r ∈ draws.
Proof.
  induction draws as [|r draws IH]; [done|]. cbn [draw_id].
  destruct (table !! ("i14" +:+ JsString.of_number r)) eqn:Hlook.
  - intros H. destruct (IH H) as (? & r' & ? & ?).
    split; [done|]. exists r'. split; [done|]. by right.
  - intros [= <- <-]. split; [done|]. exists r. split; [done|]. by left.
Qed.

Lemma draw_id_returns (table : gmap string componentAPI) (draws : list N) (r : N) :
  r ∈ draws → table !! ("i14" +:+ JsString.of_number r) = None →
  is_Some (draw_id table draws).
Proof.
  induction draws as [|r' draws IH]; intros Hin Hfree.
  - by apply elem_of_nil in Hin.
  - cbn [draw_id].
    destruct (table !! ("i14" +:+ JsString.of_number r')) eqn:Hlook; [|eauto].
    apply IH; [|done].
    apply elem_of_cons in Hin as [->|Hin]; [congruence | done].
Qed.

(** The loop ends as soon as a draw gives an identifier that is free. *)
Lemma generate_id_returns (st : loader) (r : N) :
  r ∈ random st →
  _registeredComponents st !! ("i14" +:+ JsString.of_number r) = None →
  ∃ id st', generate_id st = Normal id st'.
Proof.
  intros Hin Hfree. unfold generate_id.
  destruct (draw_id_returns _ _ r Hin Hfree) as [[id rest] ->]. eauto.
Qed.

(** C4. Every identifier that the loop generates is absent from the table
    of instances at that moment, and begins with a letter. *)
Theorem generated_id_fresh_and_lettered (st st' : loader) (id : string) :
  generate_id st = Normal id st' →
  _registeredComponents st !! id = None
  ∧ JsString.starts_with_letter id = true.
Proof.
  unfold generate_id.
  destruct (draw_id (_registeredComponents st) (random st)) as [[id' rest]|] eqn:Hd;
    [|done].
  intros [= <- <-]. destruct (draw_id_fresh _ _ _ _ Hd) as (Hfree & r & -> & _).
  done.
Qed.

Lemma generated_id_fresh_and_lettered_witness :
  (generate_id Page.fresh = Normal "i145" (set_random [5%N; 7%N; 9%N] Page.fresh)
   ∧ _registeredComponents Page.fresh !! "i145" = None
   ∧ JsString.starts_with_letter "i145" = true)
  ∧ is_Some (_registeredComponents Page.loaded !! "i145")
  ∧ is_Some (_registeredComponents Page.loaded !! "i147")
  ∧ generate_id (set_random [5%N; 7%N; 9%N] Page.loaded)
    = Normal "i149" (set_random [] Page.loaded)
  ∧ _registeredComponents (set_random [5%N; 7%N; 9%N] Page.loaded) !! "i149" = None
  ∧ JsString.starts_with_letter "i149" = true.
Proof.
  split.
  - split; [reflexivity|].
    apply (generated_id_fresh_and_lettered Page.fresh
             (set_random [5%N; 7%N; 9%N] Page.fresh) "i145").
    reflexivity.
  - split; [vm_compute; eauto|]. split; [vm_compute; eauto|]. split; [reflexivity|].
    apply (generated_id_fresh_and_lettered (set_random [5%N; 7%N; 9%N] Page.loaded)
             (set_random [] Page.loaded) "i149").
    reflexivity.
Defined.

(** ** The api check of initializeComponents *)

(** The check raises when the constructor returns a function, and the
    message names the component. *)
Lemma instantiate_function_api_raises (fuel : nat) (sName : string)
    (body : elem → ctor_outcome) (element : elem) (st : loader)
    (this_members m : members) (id : string) (rest : list N) :
  componentized st element = false →
  body element = CtorCompletes this_members (ReturnsFunction m) →
  draw_id (_registeredComponents st) (random st) = Some (id, rest) →
  instantiate fuel sName (FuncConstructor body) element st
  = Throws (ThrowString ("Component " +:+ sName +:+ " does not return an api"))
      (set_random rest
         (add_event (EvConstruct sName element)
            (setAttribute_componentized element st))).
Proof.
  intros Hflag Hbody Hdraw.
  unfold instantiate, bind, get. rewrite Hflag. cbn [is_undefined negb andb].
  unfold modify, construct, bind, modify. rewrite Hbody.
  unfold ret, generate_id. cbn. rewrite Hdraw. done.
Qed.

(** C5. The claim fails on the code: [new oFunction(element)] never yields
    an absent value.  When the factory returns nothing, the object it was
    constructed on stands for the instance: the check does not raise, and
    the object is entered in the table under the generated identifier. *)
Theorem absent_api_accepted (fuel : nat) (sName : string)
    (body : elem → ctor_outcome) (element : elem) (st : loader)
    (this_members : members) (id : string) (rest : list N) :
  componentized st element = false →
  body element = CtorCompletes this_members ReturnsNothing →
  m_init this_members = None → m_render this_members = None →
  draw_id (_registeredComponents st) (random st) = Some (id, rest) →
  instantiate fuel sName (FuncConstructor body) element st
  = Normal tt
      (after_register sName element rest (make_api id element this_members) st).
Proof.
  intros Hflag Hbody Hinit Hrender Hdraw.
  unfold instantiate, bind, get. rewrite Hflag. cbn [is_undefined negb andb].
  unfold modify, construct, bind, modify. rewrite Hbody.
  unfold ret, generate_id.
  cbn [_registeredComponents random add_event append_trace
       setAttribute_componentized set_elements].
  rewrite Hdraw.
  cbn [nv_is_function nv_members m_init m_render api_init api_render].
  case_bool_decide as H1; [rewrite Hinit in H1; by destruct H1|].
  case_bool_decide as H2; [rewrite Hrender in H2; by destruct H2|].
  done.
Qed.

Lemma absent_api_accepted_witness :
  instantiate 2 "widget" Page.returns_nothing 1%nat Page.fresh
  = Normal tt
      (after_register "widget" 1%nat [5%N; 7%N; 9%N]
         (make_api "i145" 1%nat {| m_init := None; m_render := None |}) Page.fresh)
  ∧ findInstanceById
      (after_register "widget" 1%nat [5%N; 7%N; 9%N]
         (make_api "i145" 1%nat {| m_init := None; m_render := None |}) Page.fresh)
      "i145"
    = Some {| api_id := "i145"; api_context := 1%nat;
              api_init := None; api_render := None |}.
Proof.
  split; [|reflexivity].
  apply (absent_api_accepted 2 "widget" (λ _, CtorCompletes {| m_init := None; m_render := None |} ReturnsNothing)
           1%nat Page.fresh {| m_init := None; m_render := None |} "i145"
           [5%N; 7%N; 9%N]); reflexivity.
Defined.

(** The same through the whole protocol: scan, register, initialize. *)
Lemma initialize_accepts_absent_api :
  ∃ st',
    (scan None >> register "widget" Page.returns_nothing >> initializeComponents 2)
      Page.fresh = Normal tt st'
    ∧ findInstanceById st' "i145"
      = Some {| api_id := "i145"; api_context := 1%nat;
                api_init := None; api_render := None |}
    ∧ findInstanceById st' "i147"
      = Some {| api_id := "i147"; api_context := 2%nat;
                api_init := None; api_render := None |}.
Proof. eexists. split; [vm_compute; reflexivity|]. split; reflexivity. Qed.

(** ** The names scan extracts *)

(** For a token that begins with the prefix the name is what follows it,
    and the element is appended to the bucket of that name. *)
Lemma scan_class_prefixed (element : elem) (sName : string) (st : loader) :
  inherited_by_object sName = false →
  scan_class element (COMPONENT_PREFIX +:+ sName) st
  = Normal tt
      (set_componentsHash
         (<[sName := default [] (_componentsHash st !! sName) ++ [element]]>) st).
Proof.
  intros Hinh. unfold scan_class.
  rewrite indexOf_app, slice_app. cbn [Z.ltb Z.compare].
  unfold bind, get, hash_get. rewrite Hinh.
  by destruct (_componentsHash st !! sName).
Qed.

(** A token without the prefix is passed over. *)
Lemma scan_class_unmarked (element : elem) (sClass : string) (st : loader) :
  JsString.indexOf sClass COMPONENT_PREFIX = -1 →
  scan_class element sClass st = Normal tt st.
Proof. intros H. unfold scan_class. by rewrite H. Qed.

Lemma dash_not_inherited (sName : string) :
  inherited_by_object ("-" +:+ sName) = false.
Proof.
  apply bool_decide_eq_false_2. unfold Object_prototype_names.
  intros Hin. repeat (apply elem_of_cons in Hin as [Hin|Hin]; [discriminate Hin|]).
  by apply elem_of_nil in Hin.
Qed.

Lemma indexOf_inner_prefix (c : ascii) (sName : string) :
  JsString.indexOf (String c (COMPONENT_PREFIX +:+ sName)) COMPONENT_PREFIX = 1.
Proof.
  unfold JsString.indexOf.
  assert (String.prefix COMPONENT_PREFIX (String c (COMPONENT_PREFIX +:+ sName)) = false)
    as Hfirst.
  { unfold COMPONENT_PREFIX. cbn [String.prefix append].
    destruct (ascii_dec "j" c); [|done]. by destruct (ascii_dec "s" "j"). }
  cbn [JsString.indexOf_from]. rewrite Hfirst.
  apply indexOf_from_prefix, prefix_app.
Qed.

(** C6. The claim fails on the code: the test is "the token contains the
    prefix", the name is "the token without its first 13 characters".  For a
    token in which one character precedes the prefix, the name extracted is
    not what follows the prefix: it begins with the hyphen that ends the
    prefix, and the element lands in the bucket of that other name. *)
Theorem scan_class_inner_prefix (c : ascii) (sName : string) (element : elem)
    (st : loader) :
  scan_class element (String c (COMPONENT_PREFIX +:+ sName)) st
  = Normal tt
      (set_componentsHash
         (<["-" +:+ sName := bucket st ("-" +:+ sName) ++ [element]]>) st)
  ∧ "-" +:+ sName ≠ sName.
Proof.
  split.
  - unfold scan_class. rewrite indexOf_inner_prefix. cbn [Z.ltb Z.compare].
    change (JsString.slice (String c (COMPONENT_PREFIX +:+ sName))
              (String.length COMPONENT_PREFIX)) with ("-" +:+ sName).
    unfold bind, get, hash_get, bucket. rewrite dash_not_inherited.
    by destruct (_componentsHash st !! ("-" +:+ sName)).
  - intros Heq. apply (f_equal String.length) in Heq.
    change (S (String.length sName) = String.length sName) in Heq. lia.
Qed.

(** The same through [scan], on a page with one such element. *)
Lemma scan_inner_prefix_misnamed :
  ∃ st',
    scan None (empty_loader (Node 0%nat [Node 1%nat []])
                 {[1%nat := Page.shown "xjs-component-knob"]} [])
    = Normal tt st'
    ∧ _componentsHash st' !! "knob" = None
    ∧ _componentsHash st' !! "-knob" = Some [1%nat].
Proof. eexists. split; [vm_compute; reflexivity|]. split; reflexivity. Qed.

(** ** Rules for the operations *)

Lemma notifyAll_notify_rel (fuel : nat) (st : loader) :
  match notifyAll fuel st with
  | Normal _ st' | Throws _ st' => notify_rel st st'
  | NoResult => True
  end.
Proof.
  pose proof (notifyAll_spec fuel st) as Hspec.
  destruct (notifyAll fuel st) as [[] st'|e st'|]; [| |done].
  - destruct (notifying st) eqn:Hn.
    + subst st'. exists true, (_registeredForNotifications st), [].
      split; [|split; [done|split; [by left|split; [|done]]]].
      * destruct st; simpl in *; subst.
        unfold set_notifying, set_registeredForNotifications, append_trace; simpl.
        by rewrite app_nil_r.
      * intros ev Hev. by apply elem_of_nil in Hev.
    + destruct Hspec as [-> _].
      exists false, (List.filter (λ a, negb (renderable st a)) (_registeredForNotifications st)),
        (renders st (_registeredForNotifications st)).
      split; [|split; [congruence|split; [by right|split; [|congruence]]]].
      * destruct st; simpl in *; subst. done.
      * intros ev Hev. unfold renders in Hev.
        apply list_elem_of_In, in_map_iff in Hev as (a & <- & Ha).
        apply filter_In in Ha as [Ha Hr]. exists a.
        split; [by apply list_elem_of_In|done].
  - destruct Hspec as (Hn & l1 & x & l2 & msg & Hq & _ & Hx & _ & -> & _).
    exists true, (_registeredForNotifications st), (renders st l1 ++ [EvRender (api_id x)]).
    split; [|split; [done|split; [by left|split; [|congruence]]]].
    + destruct st; simpl in *; subst. done.
    + intros ev [Hev|Hev]%elem_of_app.
      * unfold renders in Hev.
        apply list_elem_of_In, in_map_iff in Hev as (a & <- & Ha).
        apply filter_In in Ha as [Ha Hr]. exists a.
        split; [|done]. rewrite Hq. apply elem_of_app. left. by apply list_elem_of_In.
      * apply list_elem_of_singleton in Hev as ->. exists x.
        split; [|done]. rewrite Hq. apply elem_of_app. right. left.
Qed.

Lemma notifyAll_preserves (I : loader → Prop) (fuel : nat) :
  (∀ st st', I st → notify_rel st st' → I st') →
  preserves I (notifyAll fuel).
Proof.
  intros H st HI. pose proof (notifyAll_notify_rel fuel st) as Hrel.
  destruct (notifyAll fuel st) as [[] st'|e st'|]; [| |done]; by apply (H st).
Qed.

Lemma run_behaviour_preserves (I : loader → Prop) (notify : M unit) (b : behaviour) :
  preserves I notify → preserves I (run_behaviour notify b).
Proof.
  intros H. unfold preserves, run_behaviour. apply triple_forEach.
  intros [|msg] _; [exact H | by apply triple_throw].
Qed.

(** The part of [instantiate] that follows the entry in the table. *)
Lemma instantiate_tail_triple (fuel : nat) (a : componentAPI)
    (Mid Rend : loader → Prop) (Q E : loader → Prop) :
  (∀ s, Mid s → Mid (add_event (EvInit (api_id a)) s)) →
  preserves Mid (notifyAll fuel) →
  (∀ s, Mid s → E s) →
  (∀ s, Mid s → api_render a = None → Q s) →
  (∀ s, Mid s → is_Some (api_render a) → isVisible s (api_context a) = false →
        Q (set_registeredForNotifications (λ q, q ++ [a]) s)) →
  (∀ s, Mid s → is_Some (api_render a) → isVisible s (api_context a) = true →
        Rend (add_event (EvRender (api_id a)) s)) →
  preserves Rend (notifyAll fuel) →
  (∀ s, Rend s → Q s) → (∀ s, Rend s → E s) →
  triple Mid
    ((if bool_decide (is_Some (api_init a))
      then call_init (notifyAll fuel) a else ret tt) >>
     (if bool_decide (is_Some (api_render a)) then
        let! st := get in
        if isVisible st (api_context a) then call_render (notifyAll fuel) a
        else modify (set_registeredForNotifications (λ q, q ++ [a]))
      else ret tt))
    (λ _, Q) E.
Proof.
  intros Hinit Hmid HmidE Hnone Hpush Hrender Hrend HrendQ HrendE.
  eapply triple_bind with (R := λ _, Mid).
  - case_bool_decide as Hi.
    + destruct Hi as [b Hb]. unfold call_init. rewrite Hb.
      eapply triple_bind with (R := λ _, Mid).
      * apply triple_modify. intros s Hs. by apply Hinit.
      * intros _. eapply triple_weaken;
          [apply (run_behaviour_preserves Mid), Hmid| | |]; auto.
    + by apply triple_ret.
  - intros _. case_bool_decide as Hr.
    + apply triple_get. intros s0 s [Hs ->].
      destruct (isVisible s0 (api_context a)) eqn:Hv.
      * destruct Hr as [b Hb]. unfold call_render. rewrite Hb.
        unfold bind, modify.
        assert (Rend (add_event (EvRender (api_id a)) s0)) as HR
          by (apply Hrender; eauto).
        pose proof (run_behaviour_preserves Rend _ b Hrend _ HR) as Hrun.
        destruct (run_behaviour (notifyAll fuel) b (add_event (EvRender (api_id a)) s0));
          auto.
      * unfold modify. by apply Hpush.
    + apply triple_ret. intros s Hs. apply Hnone; [done|].
      destruct (api_render a); [|done]. destruct Hr. eauto.
Qed.

Lemma instantiate_triple (fuel : nat) (sName : string) (oFunction : jsfunc)
    (element : elem) (P : loader → Prop)
    (Mid Rend : componentAPI → loader → Prop) (Q E : loader → Prop) :
  (∀ st, P st → is_undefined oFunction = true ∨ componentized st element = true → Q st) →
  (∀ st, P st → componentized st element = false → oFunction = FuncNotConstructor →
         E (setAttribute_componentized element st)) →
  (∀ st body msg, P st → componentized st element = false →
         oFunction = FuncConstructor body → body element = CtorRaises msg →
         E (add_event (EvConstruct sName element) (setAttribute_componentized element st))) →
  (∀ st body this_members m id rest, P st → componentized st element = false →
         oFunction = FuncConstructor body →
         body element = CtorCompletes this_members (ReturnsFunction m) →
         draw_id (_registeredComponents st) (random st) = Some (id, rest) →
         E (after_construct sName element rest st)) →
  (∀ st body this_members r m id rest, P st → componentized st element = false →
         oFunction = FuncConstructor body →
         body element = CtorCompletes this_members r →
         (r = ReturnsNothing ∧ m = this_members ∨ r = ReturnsObject m) →
         draw_id (_registeredComponents st) (random st) = Some (id, rest) →
         Mid (make_api id element m)
           (after_register sName element rest (make_api id element m) st)) →
  (∀ a s, Mid a s → Mid a (add_event (EvInit (api_id a)) s)) →
  (∀ a, preserves (Mid a) (notifyAll fuel)) →
  (∀ a s, Mid a s → E s) →
  (∀ a s, Mid a s → api_render a = None → Q s) →
  (∀ a s, Mid a s → is_Some (api_render a) → isVisible s (api_context a) = false →
          Q (set_registeredForNotifications (λ q, q ++ [a]) s)) →
  (∀ a s, Mid a s → is_Some (api_render a) → isVisible s (api_context a) = true →
          Rend a (add_event (EvRender (api_id a)) s)) →
  (∀ a, preserves (Rend a) (notifyAll fuel)) →
  (∀ a s, Rend a s → Q s) → (∀ a s, Rend a s → E s) →
  triple P (instantiate fuel sName oFunction element) (λ _, Q) E.
Proof.
  intros Hskip Hnot Hraise Hfun Hreg Hinit Hmid HmidE Hnone Hpush Hrender Hrend
    HrendQ HrendE st HP.
  unfold instantiate. unfold bind at 1. unfold get at 1.
  destruct (is_undefined oFunction) eqn:Hu; cbn [negb andb];
    [apply Hskip; auto|].
  destruct (componentized st element) eqn:Hc; cbn [negb];
    [apply Hskip; auto|].
  unfold bind at 1. unfold modify at 1. unfold bind at 1.
  destruct oFunction as [| |body]; [done|by apply Hnot|].
  unfold construct. unfold bind at 1. unfold modify at 1.
  destruct (body element) as [msg|this_members r] eqn:Hbody; [by eapply Hraise|].
  pose (st1 := add_event (EvConstruct sName element)
                 (setAttribute_componentized element st)).
  assert (∀ m fn, 
    (fn = true → ∃ m', r = ReturnsFunction m') →
    (fn = false → r = ReturnsNothing ∧ m = this_members ∨ r = ReturnsObject m) →
    match
      (let! componentId := generate_id in
       if fn then throw (ThrowString (invalid_api_message sName))
       else
         modify (set_registeredComponents
                   (<[componentId := make_api componentId element m]>)) >>
         ((if bool_decide (is_Some (api_init (make_api componentId element m)))
           then call_init (notifyAll fuel) (make_api componentId element m)
           else ret tt) >>
          (if bool_decide (is_Some (api_render (make_api componentId element m))) then
             let! st := get in
             if isVisible st element
             then call_render (notifyAll fuel) (make_api componentId element m)
             else modify (set_registeredForNotifications
                            (λ q, q ++ [make_api componentId element m]))
           else ret tt))) st1
    with
    | Normal _ st' => Q st'
    | Throws _ st' => E st'
    | NoResult => True
    end) as Hrest.
  { intros m fn Hfn Hobj. unfold bind at 1. unfold generate_id.
    destruct (draw_id (_registeredComponents st1) (random st1)) as [[id rest]|] eqn:Hd;
      [|done].
    destruct fn.
    - destruct (Hfn eq_refl) as [m' ->]. by eapply Hfun.
    - unfold bind at 1. unfold modify at 1.
      eapply (instantiate_tail_triple fuel (make_api id element m)
                (Mid (make_api id element m)) (Rend (make_api id element m)) Q E);
        eauto. }
  destruct r as [|m|m].
  - apply (Hrest this_members false); [done|auto].
  - apply (Hrest m false); [done|auto].
  - apply (Hrest m true); [eauto|done].
Qed.



(** ** The flag data-componentized *)

Lemma get_element_insert (e e' : elem) (x : element) (st : loader) :
  get_element (set_elements (<[e := x]>) st) e'
  = if decide (e = e') then x else get_element st e'.
Proof.
  unfold get_element. cbn [elements set_elements]. rewrite lookup_insert.
  by destruct (decide (e = e')).
Qed.

Lemma componentized_setAttribute (e e' : elem) (st : loader) :
  componentized (setAttribute_componentized e st) e'
  = if decide (e = e') then true else componentized st e'.
Proof.
  unfold componentized, setAttribute_componentized. rewrite get_element_insert.
  by destruct (decide (e = e')).
Qed.

Lemma componentized_set_style (e e' : elem) (d v : string) (o : option elem)
    (st : loader) :
  componentized (set_style e d v o st) e' = componentized st e'.
Proof.
  unfold componentized, set_style. rewrite get_element_insert.
  by destruct (decide (e = e')) as [->|].
Qed.

Lemma isVisible_setAttribute (e e' : elem) (st : loader) :
  isVisible (setAttribute_componentized e st) e' = isVisible st e'.
Proof.
  unfold isVisible, setAttribute_componentized. rewrite get_element_insert.
  by destruct (decide (e = e')) as [->|].
Qed.

Lemma constructed_app (a b : list event) :
  constructed (a ++ b) = constructed a ++ constructed b.
Proof. apply omap_app. Qed.

(** ** [evolves] is a preorder that every step of the loader respects *)

Lemma evolves_refl (st : loader) : evolves st st.
Proof.
  split; try done.
  - exists []. rewrite app_nil_r. split; [done|]. split; [|constructor].
    intros e He. by apply elem_of_nil in He.
  - intros id a H1 H2. congruence.
  - intros id a H1 H2. congruence.
  - intros id1 a1 id2 a2 H1 H2. congruence.
Qed.

Lemma evolves_trans (st st1 st2 : loader) :
  evolves st st1 → evolves st1 st2 → evolves st st2.
Proof.
  intros [F1 R1 (d1 & T1 & C1 & N1) W1 L1 O1 G1] [F2 R2 (d2 & T2 & C2 & N2) W2 L2 O2 G2].
  assert (∀ e, componentized st1 e = false → componentized st e = false) as Hback.
  { intros e He. destruct (componentized st e) eqn:Hc; [|done].
    rewrite (F1 e Hc) in He. done. }
  split.
  - auto.
  - auto.
  - exists (d1 ++ d2). split; [by rewrite T2, T1, app_assoc|].
    rewrite constructed_app. split.
    + intros e [He|He]%elem_of_app.
      * destruct (C1 e He). auto.
      * destruct (C2 e He). auto.
    + apply NoDup_app. split; [done|]. split; [|done].
      intros e He1 He2. destruct (C1 e He1) as [_ Ht]. destruct (C2 e He2) as [Hf _].
      congruence.
  - intros id a Hin Hout.
    destruct (_registeredComponents st1 !! id) as [a1|] eqn:H1.
    + assert (a1 = a) as -> by (apply R2 in H1; congruence).
      destruct (W1 id a H1 Hout). auto.
    + destruct (W2 id a Hin H1). auto.
  - intros id a Hin Hout.
    destruct (_registeredComponents st1 !! id) as [a1|] eqn:H1.
    + by apply (L1 id a1).
    + by apply (L2 id a).
  - intros id1 a1 id2 a2 Hin1 Hout1 Hin2 Hout2 Hctx.
    destruct (_registeredComponents st1 !! id1) as [b1|] eqn:H1;
      destruct (_registeredComponents st1 !! id2) as [b2|] eqn:H2.
    + assert (b1 = a1) as -> by (apply R2 in H1; congruence).
      assert (b2 = a2) as -> by (apply R2 in H2; congruence).
      by eapply O1.
    + assert (b1 = a1) as -> by (apply R2 in H1; congruence).
      destruct (W1 id1 a1 H1 Hout1) as [_ Ht]. destruct (W2 id2 a2 Hin2 H2) as [Hf _].
      congruence.
    + assert (b2 = a2) as -> by (apply R2 in H2; congruence).
      destruct (W1 id2 a2 H2 Hout2) as [_ Ht]. destruct (W2 id1 a1 Hin1 H1) as [Hf _].
      congruence.
    + by eapply O2.
  - auto.
Qed.

(** A step that leaves flags, table, trace and [notifying] alone. *)
Lemma evolves_frame (st st' : loader) :
  (∀ e, componentized st' e = componentized st e) →
  _registeredComponents st' = _registeredComponents st →
  trace st' = trace st →
  notifying st' = notifying st →
  evolves st st'.
Proof.
  intros Hf Hr Ht Hn. split.
  - intros e. by rewrite Hf.
  - intros id a. by rewrite Hr.
  - exists []. rewrite app_nil_r. split; [done|]. split; [|constructor].
    intros e He. by apply elem_of_nil in He.
  - intros id a. rewrite Hr. congruence.
  - intros id a. rewrite Hr. congruence.
  - intros id1 a1 id2 a2. rewrite Hr. congruence.
  - by rewrite Hn.
Qed.

Lemma constructed_renders (evs : list event) :
  (∀ ev, ev ∈ evs → ∃ id, ev = EvRender id) → constructed evs = [].
Proof.
  induction evs as [|ev evs IH]; intros H; [done|].
  destruct (H ev) as [id ->]; [left|]. cbn. apply IH.
  intros ev' Hev'. apply H. by right.
Qed.

Lemma evolves_append_trace (evs : list event) (st : loader) :
  constructed evs = [] → evolves st (append_trace evs st).
Proof.
  intros Hevs. split; try done.
  - exists evs. split; [done|]. rewrite Hevs. split; [|constructor].
    intros e He. by apply elem_of_nil in He.
  - intros id a H1 H2. cbn in H1. congruence.
  - intros id a H1 H2. cbn in H1. congruence.
  - intros id1 a1 id2 a2 H1 H2. cbn in H1. congruence.
Qed.

Lemma evolves_notify_rel (st st' : loader) : notify_rel st st' → evolves st st'.
Proof.
  intros (b & q' & evs & -> & Hb & _ & Hevs & _). split.
  - done.
  - done.
  - exists evs. split; [done|].
    rewrite constructed_renders.
    + split; [|constructor]. intros e He. by apply elem_of_nil in He.
    + intros ev Hev. destruct (Hevs ev Hev) as (a & _ & _ & ->). eauto.
  - intros id a H1 H2. cbn in H1. congruence.
  - intros id a H1 H2. cbn in H1. congruence.
  - intros id1 a1 id2 a2 H1 H2. cbn in H1. congruence.
  - done.
Qed.

Lemma evolves_setAttribute (e : elem) (st : loader) :
  evolves st (setAttribute_componentized e st).
Proof.
  split.
  - intros e' He'. rewrite componentized_setAttribute. by destruct (decide (e = e')).
  - done.
  - exists []. cbn. rewrite app_nil_r. split; [done|]. split; [|constructor].
    intros e' He'. by apply elem_of_nil in He'.
  - intros id a H1 H2. cbn in H1. congruence.
  - intros id a H1 H2. cbn in H1. congruence.
  - intros id1 a1 id2 a2 H1 H2. cbn in H1. congruence.
  - done.
Qed.

Lemma evolves_after_construct (sName : string) (e : elem) (rest : list N)
    (st : loader) :
  componentized st e = false →
  evolves st (after_construct sName e rest st).
Proof.
  intros Hc. split.
  - intros e' He'. change (componentized (setAttribute_componentized e st) e' = true).
    rewrite componentized_setAttribute. by destruct (decide (e = e')).
  - done.
  - exists [EvConstruct sName e]. split; [done|]. split.
    + intros e' He'. cbn in He'. apply list_elem_of_singleton in He' as ->.
      split; [done|].
      change (componentized (setAttribute_componentized e st) e = true).
      rewrite componentized_setAttribute. by destruct (decide (e = e)).
    + cbn. apply NoDup_singleton.
  - intros id a H1 H2. cbn in H1. congruence.
  - intros id a H1 H2. cbn in H1. congruence.
  - intros id1 a1 id2 a2 H1 H2. cbn in H1. congruence.
  - done.
Qed.

Lemma evolves_after_register (sName : string) (e : elem) (rest : list N)
    (id : string) (m : members) (st : loader) :
  componentized st e = false →
  _registeredComponents st !! id = None →
  JsString.starts_with_letter id = true →
  evolves st (after_register sName e rest (make_api id e m) st).
Proof.
  intros Hc Hfree Hletter.
  assert (componentized (setAttribute_componentized e st) e = true) as Hset.
  { rewrite componentized_setAttribute. by destruct (decide (e = e)). }
  split.
  - intros e' He'. change (componentized (setAttribute_componentized e st) e' = true).
    rewrite componentized_setAttribute. by destruct (decide (e = e')).
  - intros id' a Ha. cbn. rewrite lookup_insert_ne; [done|]. congruence.
  - exists [EvConstruct sName e]. split; [done|]. split.
    + intros e' He'. cbn in He'. apply list_elem_of_singleton in He' as ->. done.
    + cbn. apply NoDup_singleton.
  - intros id' a H1 H2. cbn in H1.
    destruct (decide (id = id')) as [<-|Hne].
    + rewrite lookup_insert_eq in H1. injection H1 as <-. done.
    + rewrite lookup_insert_ne in H1 by done. congruence.
  - intros id' a H1 H2. cbn in H1.
    destruct (decide (id = id')) as [<-|Hne]; [done|].
    rewrite lookup_insert_ne in H1 by done. congruence.
  - intros id1 a1 id2 a2 H1 H2 H3 H4 _. cbn in H1, H3.
    destruct (decide (id = id1)) as [<-|Hne1]; destruct (decide (id = id2)) as [<-|Hne2];
      try done.
    + rewrite lookup_insert_ne in H3 by done. congruence.
    + rewrite lookup_insert_ne in H1 by done. congruence.
    + rewrite lookup_insert_ne in H1 by done. congruence.
  - done.
Qed.

(** [instantiate] respects [evolves]. *)
Lemma instantiate_evolves (fuel : nat) (sName : string) (oFunction : jsfunc)
    (element : elem) (st0 : loader) :
  preserves (evolves st0) (instantiate fuel sName oFunction element).
Proof.
  apply (instantiate_triple fuel sName oFunction element (evolves st0)
           (λ _, evolves st0) (λ _, evolves st0)).
  - done.
  - intros st H _ _. eapply evolves_trans; [exact H|apply evolves_setAttribute].
  - intros st body msg H Hc _ _. eapply evolves_trans; [exact H|].
    apply (evolves_after_construct sName element (random (add_event (EvConstruct sName element) (setAttribute_componentized element st))) st Hc).
  - intros st body this_members m id rest H Hc _ _ _.
    eapply evolves_trans; [exact H|]. by apply evolves_after_construct.
  - intros st body this_members r m id rest H Hc _ _ _ Hd.
    eapply evolves_trans; [exact H|].
    destruct (draw_id_fresh _ _ _ _ Hd) as (Hfree & r' & -> & _).
    by apply evolves_after_register.
  - intros a s H. eapply evolves_trans; [exact H|]. by apply evolves_append_trace.
  - intros a. apply notifyAll_preserves. intros s s' H Hrel.
    eapply evolves_trans; [exact H|]. by apply evolves_notify_rel.
  - done.
  - done.
  - intros a s H _ _. eapply evolves_trans; [exact H|]. by apply evolves_frame.
  - intros a s H _ _. eapply evolves_trans; [exact H|]. by apply evolves_append_trace.
  - intros a. apply notifyAll_preserves. intros s s' H Hrel.
    eapply evolves_trans; [exact H|]. by apply evolves_notify_rel.
  - done.
  - done.
Qed.

Lemma initializeComponents_preserves (I : loader → Prop) (fuel : nat) :
  (∀ sName oFunction element, preserves I (instantiate fuel sName oFunction element)) →
  preserves I (initializeComponents fuel).
Proof.
  intros H. unfold preserves, initializeComponents.
  apply triple_get. intros st0.
  eapply triple_weaken; [apply (triple_forEach I I)| | |]; [|by intros ? []|done|done].
  intros d _. unfold initialize_component. apply triple_get. intros s0.
  eapply triple_weaken with (P' := I) (Q' := λ _, I) (E' := I);
    [| by intros ? [] |done|done].
  destruct (hash_get (_componentsHash s0) (name d)).
  - apply triple_forEach. intros e _. apply H.
  - by apply triple_throw.
  - by apply triple_ret.
Qed.

Lemma scan_preserves (I : loader → Prop) (context : option node) :
  (∀ f s, I s → I (set_componentsHash f s)) → preserves I (scan context).
Proof.
  intros H. unfold preserves, scan. apply triple_get. intros st0.
  eapply triple_weaken; [apply (triple_forEach I I)| | |]; [|by intros ? []|done|done].
  intros e _. unfold scan_element. apply triple_get. intros s0.
  eapply triple_weaken with (P' := I) (Q' := λ _, I) (E' := I);
    [| by intros ? [] |done|done].
  destruct (negb (componentized s0 e)); [|by apply triple_ret].
  destruct (el_class (get_element s0 e)) as [c|]; [|by apply triple_throw].
  apply triple_forEach. intros sClass _. unfold scan_class.
  destruct (-1 <? JsString.indexOf sClass COMPONENT_PREFIX); [|by apply triple_ret].
  apply triple_get. intros s1.
  eapply triple_weaken with (P' := I) (Q' := λ _, I) (E' := I);
    [| by intros ? [] |done|done].
  destruct (hash_get (_componentsHash s1) _).
  - apply triple_modify. intros s Hs. by apply H.
  - by apply triple_throw.
  - apply triple_modify. intros s Hs. by apply H.
Qed.

Lemma register_preserves (I : loader → Prop) (sName : string) (oFunction : jsfunc) :
  (∀ f s, I s → I (set_availableComponents f s)) →
  preserves I (register sName oFunction).
Proof.
  intros H st HI. rewrite register_outcome.
  destruct (array_typeof_undefined _ _); [by apply H | done].
Qed.

Lemma perform_evolves (fuel : nat) (c : call) (st0 : loader) :
  preserves (evolves st0) (perform fuel c).
Proof.
  assert (preserves (evolves st0) (initializeComponents fuel)) as Hinit.
  { apply initializeComponents_preserves. intros. apply instantiate_evolves. }
  assert (∀ context, preserves (evolves st0) (scan context)) as Hscan.
  { intros context. apply scan_preserves. intros f s Hs.
    eapply evolves_trans; [exact Hs|]. by apply evolves_frame. }
  destruct c as [sName oFunction|context| |context| |e d v o]; cbn [perform].
  - apply register_preserves. intros f s Hs.
    eapply evolves_trans; [exact Hs|]. by apply evolves_frame.
  - apply Hscan.
  - exact Hinit.
  - unfold checkForNewComponents. eapply triple_bind; [apply Hscan|].
    intros u. exact Hinit.
  - apply notifyAll_preserves. intros s s' Hs Hrel.
    eapply evolves_trans; [exact Hs|]. by apply evolves_notify_rel.
  - apply triple_modify. intros s Hs. eapply evolves_trans; [exact Hs|].
    apply evolves_frame; try done. intros e'. apply componentized_set_style.
Qed.

(** Whatever the page calls, in whatever order, [evolves] relates the state
    before to the state after. *)
Lemma session_evolves (fuel : nat) (calls : list call) (st st' : loader) :
  session fuel calls st = Some st' → evolves st st'.
Proof.
  revert st. induction calls as [|c calls IH]; intros st.
  - intros [= <-]. apply evolves_refl.
  - cbn [session].
    pose proof (perform_evolves fuel c st st (evolves_refl st)) as Hc.
    destruct (perform fuel c st) as [[] s1|e s1|]; cbn [final_state]; [| |done].
    + intros H. eapply evolves_trans; [exact Hc|]. by apply IH.
    + intros H. eapply evolves_trans; [exact Hc|]. by apply IH.
Qed.

(** Over a session: no entry of the table is ever replaced, and every
    identifier that enters it begins with a letter. *)
Lemma session_ids (fuel : nat) (calls : list call) (st st' : loader) :
  session fuel calls st = Some st' →
  (∀ id a, _registeredComponents st !! id = Some a →
           _registeredComponents st' !! id = Some a)
  ∧ ∀ id a, _registeredComponents st' !! id = Some a →
            _registeredComponents st !! id = None →
            JsString.starts_with_letter id = true.
Proof.
  intros Hrun. by destruct (session_evolves fuel calls st st' Hrun).
Qed.

(** ** Rescanning what is already instantiated *)

Lemma constructions_app (el : elem) (a b : list event) :
  constructions el (a ++ b) = constructions el a ++ constructions el b.
Proof. apply List.filter_app. Qed.

Lemma constructions_not_constructed (el : elem) (t : list event) :
  el ∉ constructed t → constructions el t = [].
Proof.
  induction t as [|ev t IH]; intros Hnot; [done|].
  destruct ev as [n e|id|id]; cbn in *; try by apply IH.
  destruct (Nat.eqb_spec e el) as [->|Hne].
  - exfalso. apply Hnot. left.
  - apply IH. intros Hin. apply Hnot. by right.
Qed.

(** Once an element is flagged, nothing the page calls constructs on it
    again, and the instances that belong to it stay what they are. *)
Lemma flagged_element_settled (fuel : nat) (calls : list call) (st st' : loader)
    (el : elem) :
  componentized st el = true →
  session fuel calls st = Some st' →
  constructions el (trace st') = constructions el (trace st)
  ∧ ∀ id a, api_context a = el →
      (_registeredComponents st' !! id = Some a
       ↔ _registeredComponents st !! id = Some a).
Proof.
  intros Hflag Hrun.
  destruct (session_evolves fuel calls st st' Hrun)
    as [_ Hreg (delta & Ht & Hc & _) Hnew _].
  split.
  - rewrite Ht, constructions_app, (constructions_not_constructed el delta).
    + apply app_nil_r.
    + intros Hin. destruct (Hc el Hin). congruence.
  - intros id a Hctx. split; [|apply Hreg].
    intros Hin. destruct (_registeredComponents st !! id) as [a0|] eqn:H0.
    + apply Hreg in H0. congruence.
    + destruct (Hnew id a Hin H0). congruence.
Qed.

Lemma forEach_fixed {A} (callback : A → M unit) (l : list A) (st : loader) :
  (∀ x, x ∈ l → final_state (callback x st) = Some st) →
  final_state (forEach callback l st) = Some st.
Proof.
  induction l as [|x l IH]; intros H; [done|].
  cbn [forEach]. unfold bind.
  pose proof (H x (list_elem_of_here _ _)) as Hx.
  destruct (callback x st) as [[] s|e s|]; cbn in Hx; [| |done].
  - injection Hx as ->. apply IH. intros y Hy. by apply H, list_elem_of_further.
  - done.
Qed.

Lemma instantiate_flagged (fuel : nat) (sName : string) (oFunction : jsfunc)
    (element : elem) (st : loader) :
  componentized st element = true →
  instantiate fuel sName oFunction element st = Normal tt st.
Proof.
  intros H. unfold instantiate, bind, get. rewrite H.
  by rewrite andb_false_r.
Qed.

Lemma scan_element_flagged (element : elem) (st : loader) :
  componentized st element = true → scan_element element st = Normal tt st.
Proof. intros H. unfold scan_element, bind, get. by rewrite H. Qed.

Lemma checkForNewComponents_fixed (fuel : nat) (context : option node) (st : loader) :
  all_instantiated [context] st →
  final_state (checkForNewComponents fuel context st) = Some st.
Proof.
  intros [Hb Hs]. unfold checkForNewComponents, bind.
  apply Forall_cons in Hs as [Hs _]. rewrite Forall_forall in Hs.
  assert (scan context st = Normal tt st) as ->.
  { unfold scan, bind, get.
    pose proof (forEach_fixed scan_element
                  (querySelectorAll st (default (document_body st) context)) st) as H.
    assert (∀ l, (∀ e, e ∈ l → componentized st e = true) →
                 forEach scan_element l st = Normal tt st) as Hl.
    { induction l as [|e l IH]; intros Hall; [done|].
      cbn [forEach]. unfold bind. rewrite scan_element_flagged.
      - apply IH. intros e' He'. by apply Hall, list_elem_of_further.
      - apply Hall. left. }
    apply Hl. intros e He. by apply Hs. }
  unfold initializeComponents, bind, get.
  apply forEach_fixed. intros d _. unfold initialize_component, bind, get, hash_get.
  destruct (_componentsHash st !! name d) as [arr|] eqn:Harr.
  - assert (∀ l, (∀ e, e ∈ l → componentized st e = true) →
                 forEach (instantiate fuel (name d) (func d)) l st = Normal tt st) as Hl.
    { induction l as [|e l IH]; intros Hall; [done|].
      cbn [forEach]. unfold bind. rewrite instantiate_flagged.
      - apply IH. intros e' He'. by apply Hall, list_elem_of_further.
      - apply Hall. left. }
    rewrite Hl; [done|]. intros e He.
    specialize (Hb (name d) arr Harr). rewrite Forall_forall in Hb. by apply Hb.
  - by destruct (inherited_by_object (name d)).
Qed.

(** C2. Rescanning (scan, then initializeComponents) any number of times,
    from whatever roots, constructs nothing more on an element that is
    already flagged and leaves the instances of that element as they are;
    and when every discovered element is flagged, each such pass hands the
    whole state back as it was. *)
Theorem rescan_idempotent (fuel : nat) (contexts : list (option node))
    (st : loader) (el : elem) :
  componentized st el = true →
  (∀ st', session fuel (CheckForNewComponents <$> contexts) st = Some st' →
     constructions el (trace st') = constructions el (trace st)
     ∧ ∀ id a, api_context a = el →
         (_registeredComponents st' !! id = Some a
          ↔ _registeredComponents st !! id = Some a))
  ∧ (all_instantiated contexts st →
     session fuel (CheckForNewComponents <$> contexts) st = Some st).
Proof.
  intros Hflag. split.
  - intros st' Hrun. by eapply flagged_element_settled.
  - clear Hflag. induction contexts as [|context contexts IH]; intros [Hb Hs]; [done|].
    cbn [fmap list_fmap session perform].
    apply Forall_cons in Hs as [Hc Hs].
    rewrite checkForNewComponents_fixed.
    + apply IH. by split.
    + split; [done|]. by apply Forall_singleton.
Qed.

Lemma rescan_idempotent_witness :
  componentized Page.loaded 1%nat = true
  ∧ session 2 (CheckForNewComponents <$> [None; None]) Page.loaded = Some Page.loaded.
Proof.
  split; [reflexivity|].
  apply (rescan_idempotent 2 [None; None] Page.loaded 1%nat); [reflexivity|].
  split.
  - apply (bool_decide_unpack _). vm_compute. exact I.
  - apply (bool_decide_unpack _). vm_compute. exact I.
Defined.

(** ** The factory that constructs on an element *)






























(** ** From the class attribute to the buckets *)

Lemma bucket_insert (sName sName' : string) (arr : list elem) (st : loader) :
  bucket (set_componentsHash (<[sName := arr]>) st) sName'
  = if decide (sName = sName') then arr else bucket st sName'.
Proof.
  unfold bucket. cbn [_componentsHash set_componentsHash].
  rewrite lookup_insert. by destruct (decide (sName = sName')).
Qed.

Lemma scan_class_marker (element : elem) (sClass : string) :
  scan_class element sClass
  = match marker_of sClass with
    | Some sName =>
        let! st := get in
        match hash_get (_componentsHash st) sName with
        | SlotArray elementInstanceArray =>
            modify (set_componentsHash (<[sName := elementInstanceArray ++ [element]]>))
        | SlotInherited => throw TypeError
        | SlotUndefined => modify (set_componentsHash (<[sName := [element]]>))
        end
    | None => ret tt
    end.
Proof.
  unfold scan_class, marker_of.
  by destruct (-1 <? JsString.indexOf sClass COMPONENT_PREFIX).
Qed.






(** What one class token adds: the element, under the name read off the
    token. *)
Lemma scan_class_pushes (element : elem) (sClass : string) (s : loader) :
  match scan_class element sClass s with
  | Normal _ s' =>
      match marker_of sClass with
      | Some sName =>
          s' = set_componentsHash (<[sName := bucket s sName ++ [element]]>) s
      | None => s' = s
      end
  | Throws _ s' => s' = s
  | NoResult => False
  end.
Proof.
  rewrite scan_class_marker. destruct (marker_of sClass) as [sName|]; [|done].
  unfold bind, get, hash_get, bucket.
  destruct (_componentsHash s !! sName) as [arr|]; [done|].
  by destruct (inherited_by_object sName).
Qed.





(** In every state of a session the buckets hold an element only under
    names read off its class attribute: [scan] alone fills them, and nothing
    changes a class attribute. *)















(** A class token [js-component-<name>] is a marker token for [<name>]. *)
Lemma marker_token (st : loader) (el : elem) (sName : string) :
  COMPONENT_PREFIX +:+ sName ∈ class_tokens st el → sName ∈ marker_names st el.
Proof.
  intros Hin. apply list_elem_of_omap. exists (COMPONENT_PREFIX +:+ sName).
  split; [done|]. unfold marker_of. rewrite indexOf_app. cbn [Z.ltb Z.compare].
  by rewrite slice_app.
Qed.






(** ** Deferred rendering *)

Lemma render_count_app (id : string) (a b : list event) :
  render_count id (a ++ b) = (render_count id a + render_count id b)%nat.
Proof. unfold render_count. by rewrite List.filter_app, length_app. Qed.

Lemma render_count_absent (id : string) (t : list event) :
  EvRender id ∉ t → render_count id t = 0%nat.
Proof.
  induction t as [|ev t IH]; intros Hnot; [done|].
  assert (render_count id t = 0%nat) as Ht
    by (apply IH; intros ?; apply Hnot; by right).
  unfold render_count in *. cbn [List.filter].
  destruct ev as [n e|id'|id']; try done.
  destruct (String.eqb_spec id id') as [->|Hne]; [|done].
  exfalso. apply Hnot. left.
Qed.




Lemma notifyAll_nothing_to_render (fuel : nat) (st : loader) :
  notifying st = false →
  (∀ b, b ∈ _registeredForNotifications st → renderable st b = false) →
  notifyAll (S (S fuel)) st = Normal tt st.
Proof.
  intros Hn Hnone. rewrite notifyAll_normal; [|done|].
  - assert (∀ q, (∀ b, b ∈ q → renderable st b = false) →
                 List.filter (renderable st) q = []
                 ∧ List.filter (λ a, negb (renderable st a)) q = q) as Hq.
    { induction q as [|b q IH]; intros Hall; [done|].
      cbn [List.filter]. rewrite (Hall b) by left. cbn [negb].
      destruct IH as [-> ->]; [|done].
      intros c Hc. apply Hall. by right. }
    destruct (Hq _ Hnone) as [Hr Hf].
    unfold renders, set_registeredForNotifications, append_trace.
    cbn [_componentsHash _availableComponents _registeredComponents
         _registeredForNotifications notifying document_body elements random trace].
    rewrite Hr, Hf. cbn [List.map]. rewrite app_nil_r. by destruct st.
  - intros b Hb Hr. rewrite (Hnone b Hb) in Hr. done.
Qed.


Lemma nodup_map_filter {A B} (f : A → B) (P : A → bool) (l : list A) :
  NoDup (List.map f l) → NoDup (List.map f (List.filter P l)).
Proof.
  induction l as [|x l IH]; intros Hnd; [done|].
  cbn [List.map] in Hnd. apply NoDup_cons in Hnd as [Hx Hnd].
  cbn [List.filter]. destruct (P x); [|by apply IH].
  cbn [List.map]. apply NoDup_cons. split; [|by apply IH].
  intros Hin. apply Hx.
  apply list_elem_of_In, in_map_iff in Hin as (y & Hy & Hin).
  apply filter_In in Hin as [Hin _].
  apply list_elem_of_In, in_map_iff. by exists y.
Qed.

(** The queue a call of [notifyAll] leaves is part of the queue it found. *)
Lemma notify_rel_queue (st : loader) (q' : list componentAPI) :
  q' = _registeredForNotifications st
  ∨ q' = List.filter (λ a, negb (renderable st a)) (_registeredForNotifications st) →
  (∀ b, b ∈ q' → b ∈ _registeredForNotifications st)
  ∧ (NoDup (queued_ids st) → NoDup (List.map api_id q'))
  ∧ (∀ b, b ∈ _registeredForNotifications st → renderable st b = false → b ∈ q').
Proof.
  intros [->| ->]; [done|]. split; [|split].
  - intros b Hb%list_elem_of_In. apply filter_In in Hb as [Hb _].
    by apply list_elem_of_In.
  - apply nodup_map_filter.
  - intros b Hb Hr. apply list_elem_of_In, filter_In.
    split; [by apply list_elem_of_In | by rewrite Hr].
Qed.

Lemma well_formed_notify_rel (s s' : loader) :
  well_formed s → notify_rel s s' → well_formed s'.
Proof.
  intros [Hk Hnd Hq Ht] (b & q' & evs & -> & _ & Hq' & Hevs & _).
  destruct (notify_rel_queue s q' Hq') as (Hsub & Hnd' & _).
  split.
  - exact Hk.
  - by apply Hnd'.
  - intros a Ha. apply Hq. by apply Hsub.
  - intros id [Hin|Hin]%elem_of_app; [by apply Ht|].
    destruct (Hevs _ Hin) as (a & Ha & _ & [= ->]). exists a. by apply Hq.
Qed.

Lemma pass_inv_notify_rel (st0 : loader) (skip : option string) (s s' : loader) :
  pass_inv st0 skip s → notify_rel s s' → pass_inv st0 skip s'.
Proof.
  intros [Hwf Hvis Hreg Hhid] Hrel.
  pose proof (well_formed_notify_rel s s' Hwf Hrel) as Hwf'.
  destruct Hrel as (b & q' & evs & -> & _ & Hq' & Hevs & _).
  destruct (notify_rel_queue s q' Hq') as (_ & _ & Hkeep).
  split; [exact Hwf'|exact Hvis|exact Hreg|].
  intros id a Hskip Ha Hnew Hrender Hhidden.
  destruct (Hhid id a Hskip Ha Hnew Hrender Hhidden) as [Hin Hnot].
  assert (renderable s a = false) as Hr.
  { unfold renderable. by rewrite Hvis, Hhidden, andb_false_r. }
  split; [by apply Hkeep|].
  intros [Hin'|Hin']%elem_of_app; [done|].
  destruct (Hevs _ Hin') as (c & Hc & Hrc & [= ->]).
  cbn in Ha.
  assert (c = a) as -> by (pose proof (wf_queue s Hwf c Hc); congruence).
  congruence.
Qed.

Lemma entered_notify_rel (st0 : loader) (a : componentAPI) (s s' : loader) :
  entered st0 a s → notify_rel s s' → entered st0 a s'.
Proof.
  intros (Hinv & Ha & H0 & Hnq & Hnt) Hrel.
  pose proof (pass_inv_notify_rel st0 _ s s' Hinv Hrel) as Hinv'.
  destruct Hrel as (b & q' & evs & -> & _ & Hq' & Hevs & _).
  destruct (notify_rel_queue s q' Hq') as (Hsub & _ & _).
  split; [exact Hinv'|]. split; [exact Ha|]. split; [exact H0|]. split.
  - intros Hin. apply Hnq.
    apply list_elem_of_In, in_map_iff in Hin as (c & Hc & Hin).
    apply list_elem_of_In, in_map_iff. exists c. split; [done|].
    apply list_elem_of_In, Hsub. by apply list_elem_of_In.
  - intros [Hin|Hin]%elem_of_app; [done|].
    destruct (Hevs _ Hin) as (c & Hc & _ & [= Heq]). apply Hnq. rewrite Heq.
    apply list_elem_of_In, in_map. by apply list_elem_of_In.
Qed.

Lemma rendering_notify_rel (st0 : loader) (a : componentAPI) (s s' : loader) :
  rendering st0 a s → notify_rel s s' → rendering st0 a s'.
Proof.
  intros (Hinv & Ha & Hv) Hrel.
  pose proof (pass_inv_notify_rel st0 _ s s' Hinv Hrel) as Hinv'.
  destruct Hrel as (b & q' & evs & -> & _). done.
Qed.

(** Steps that leave table and queue alone and add no render event. *)
Lemma well_formed_ext (s s' : loader) :
  _registeredComponents s' = _registeredComponents s →
  _registeredForNotifications s' = _registeredForNotifications s →
  (∀ id, EvRender id ∈ trace s' → EvRender id ∈ trace s) →
  well_formed s → well_formed s'.
Proof.
  intros Hr Hq Ht [Hk Hnd Hwq Hwt]. split.
  - intros id a. rewrite Hr. apply Hk.
  - unfold queued_ids. by rewrite Hq.
  - intros a. rewrite Hq, Hr. apply Hwq.
  - intros id Hid. rewrite Hr. by apply Hwt, Ht.
Qed.

Lemma pass_inv_ext (st0 : loader) (skip : option string) (s s' : loader) :
  _registeredComponents s' = _registeredComponents s →
  _registeredForNotifications s' = _registeredForNotifications s →
  (∀ id, EvRender id ∈ trace s' → EvRender id ∈ trace s) →
  (∀ e, isVisible s' e = isVisible s e) →
  pass_inv st0 skip s → pass_inv st0 skip s'.
Proof.
  intros Hr Hq Ht Hv [Hwf Hvis Hreg Hhid]. split.
  - by apply (well_formed_ext s s').
  - intros e. by rewrite Hv.
  - intros id a. rewrite Hr. apply Hreg.
  - intros id a Hskip Ha Hnew Hrender Hhidden. rewrite Hr in Ha.
    destruct (Hhid id a Hskip Ha Hnew Hrender Hhidden) as [Hin Hnot].
    rewrite Hq. split; [done|]. intros Hin'. by apply Hnot, Ht.
Qed.

Lemma render_in_snoc (id : string) (t : list event) (ev : event) :
  (∀ id', ev ≠ EvRender id') → EvRender id ∈ t ++ [ev] → EvRender id ∈ t.
Proof.
  intros Hev [Hin|Hin]%elem_of_app; [done|].
  apply list_elem_of_singleton in Hin. by destruct (Hev id).
Qed.

Lemma queued_id_elem (s : loader) (id : string) :
  id ∈ queued_ids s → ∃ c, c ∈ _registeredForNotifications s ∧ api_id c = id.
Proof.
  intros Hin. apply list_elem_of_In, in_map_iff in Hin as (c & Hc & Hin).
  exists c. by rewrite list_elem_of_In.
Qed.

Lemma pass_inv_entered (st0 st : loader) (sName : string) (e : elem)
    (rest : list N) (id : string) (m : members) :
  pass_inv st0 None st →
  _registeredComponents st !! id = None →
  entered st0 (make_api id e m) (after_register sName e rest (make_api id e m) st).
Proof.
  intros [[Hk Hnd Hq Ht] Hvis Hreg Hhid] Hfree.
  assert (∀ id', EvRender id' ∈ trace (after_register sName e rest (make_api id e m) st) →
                 EvRender id' ∈ trace st) as Htr.
  { intros id'. by apply render_in_snoc. }
  split; [split; [split|..]|].
  - intros id' a. cbn. destruct (decide (id = id')) as [<-|Hne].
    + rewrite lookup_insert_eq. by intros [= <-].
    + rewrite lookup_insert_ne by done. apply Hk.
  - exact Hnd.
  - intros a Ha. cbn. rewrite lookup_insert_ne; [by apply Hq|].
    intros Heq. apply Hq in Ha. cbn in Heq. congruence.
  - intros id' Hin. cbn. destruct (decide (id = id')) as [<-|Hne].
    + rewrite lookup_insert_eq. eauto.
    + rewrite lookup_insert_ne by done. by apply Ht, Htr.
  - intros e'. rewrite <- Hvis.
    apply (isVisible_setAttribute e e' st).
  - intros id' a Ha. cbn. rewrite lookup_insert_ne; [by apply Hreg|].
    intros <-. apply Hreg in Ha. congruence.
  - intros id' a Hskip Ha Hnew Hrender Hhidden. cbn in Ha.
    rewrite lookup_insert_ne in Ha by (cbn in Hskip; congruence).
    destruct (Hhid id' a) as [Hin Hnot]; try done.
    split; [done|]. intros Hin'. by apply Hnot, Htr.
  - cbn. split; [by rewrite lookup_insert_eq|]. split.
    + destruct (_registeredComponents st0 !! id) as [a|] eqn:H0; [|done].
      apply Hreg in H0. congruence.
    + split.
      * intros (c & Hc & Hid)%queued_id_elem. apply Hq in Hc. congruence.
      * intros Hin%Htr. apply Ht in Hin as [a Ha]. congruence.
Qed.

Lemma entered_init (st0 : loader) (a : componentAPI) (s : loader) :
  entered st0 a s → entered st0 a (add_event (EvInit (api_id a)) s).
Proof.
  intros (Hinv & Ha & H0 & Hnq & Hnt).
  split; [|split; [done|split; [done|split; [done|]]]].
  - apply (pass_inv_ext st0 _ s); try done. intros id. by apply render_in_snoc.
  - intros Hin. apply Hnt. revert Hin. by apply render_in_snoc.
Qed.

Lemma entered_well_formed (st0 : loader) (a : componentAPI) (s : loader) :
  entered st0 a s → well_formed s.
Proof. intros ([Hwf _ _ _] & _). exact Hwf. Qed.

Lemma entered_none (st0 : loader) (a : componentAPI) (s : loader) :
  entered st0 a s → api_render a = None → pass_inv st0 None s.
Proof.
  intros ([Hwf Hvis Hreg Hhid] & Ha & H0 & Hnq & Hnt) Hnone.
  split; try done.
  intros id a' _ Ha' Hnew Hrender Hhidden.
  destruct (decide (id = api_id a)) as [->|Hne].
  - assert (a' = a) as -> by congruence. rewrite Hnone in Hrender.
    by destruct Hrender.
  - apply Hhid; try done. congruence.
Qed.

Lemma entered_push (st0 : loader) (a : componentAPI) (s : loader) :
  entered st0 a s →
  pass_inv st0 None (set_registeredForNotifications (λ q, q ++ [a]) s).
Proof.
  intros ([[Hk Hnd Hq Ht] Hvis Hreg Hhid] & Ha & H0 & Hnq & Hnt).
  split; [split|..]; try done.
  - unfold queued_ids. cbn. rewrite List.map_app. apply NoDup_app.
    split; [exact Hnd|]. split; [|apply NoDup_singleton].
    intros id Hid Hin. cbn in Hin. apply list_elem_of_singleton in Hin as ->. done.
  - intros b. cbn. intros [Hb|Hb]%elem_of_app; [by apply Hq|].
    apply list_elem_of_singleton in Hb as ->. done.
  - intros id a' _ Ha' Hnew Hrender Hhidden. cbn in Ha'. cbn.
    destruct (decide (id = api_id a)) as [->|Hne].
    + assert (a' = a) as -> by congruence. split; [|done].
      apply elem_of_app. right. left.
    + destruct (Hhid id a') as [Hin Hnot]; try done; [congruence|].
      split; [|done]. apply elem_of_app. by left.
Qed.

Lemma entered_render (st0 : loader) (a : componentAPI) (s : loader) :
  entered st0 a s → isVisible s (api_context a) = true →
  rendering st0 a (add_event (EvRender (api_id a)) s).
Proof.
  intros ([[Hk Hnd Hq Ht] Hvis Hreg Hhid] & Ha & H0 & Hnq & Hnt) Hv.
  split; [split; [split|..]|]; try done.
  - intros id [Hin|Hin]%elem_of_app; [by apply Ht|].
    apply list_elem_of_singleton in Hin as [= ->]. cbn. eauto.
  - intros id a' Hskip Ha' Hnew Hrender Hhidden.
    destruct (Hhid id a') as [Hin Hnot]; try done.
    split; [done|]. intros [Hin'|Hin']%elem_of_app; [done|].
    apply list_elem_of_singleton in Hin' as [= ->]. by apply Hskip.
  - split; [done|]. by rewrite <- Hvis.
Qed.

Lemma rendering_done (st0 : loader) (a : componentAPI) (s : loader) :
  rendering st0 a s → pass_inv st0 None s.
Proof.
  intros ([Hwf Hvis Hreg Hhid] & Ha & Hv). split; try done.
  intros id a' _ Ha' Hnew Hrender Hhidden.
  destruct (decide (id = api_id a)) as [->|Hne].
  - assert (a' = a) as -> by congruence. congruence.
  - apply Hhid; try done. congruence.
Qed.

Lemma rendering_well_formed (st0 : loader) (a : componentAPI) (s : loader) :
  rendering st0 a s → well_formed s.
Proof. intros ([Hwf _ _ _] & _). exact Hwf. Qed.

(** Through [instantiate], the instances created hidden stay queued and
    unrendered; a raise leaves a well-formed state. *)
Lemma instantiate_pass_inv (fuel : nat) (sName : string) (oFunction : jsfunc)
    (e : elem) (st0 : loader) :
  triple (pass_inv st0 None) (instantiate fuel sName oFunction e)
    (λ _, pass_inv st0 None) well_formed.
Proof.
  apply (instantiate_triple fuel sName oFunction e (pass_inv st0 None)
           (entered st0) (rendering st0)).
  - by intros st H _.
  - intros st [Hwf _ _ _] _ _. by apply (well_formed_ext st).
  - intros st body msg [Hwf _ _ _] _ _ _. apply (well_formed_ext st); try done.
    intros id. by apply render_in_snoc.
  - intros st body this_members m id rest [Hwf _ _ _] _ _ _ _.
    apply (well_formed_ext st); try done. intros id'. by apply render_in_snoc.
  - intros st body this_members r m id rest H _ _ _ _ Hd.
    apply pass_inv_entered; [done|]. by destruct (draw_id_fresh _ _ _ _ Hd).
  - intros a s. apply entered_init.
  - intros a. apply notifyAll_preserves. intros s s'. apply entered_notify_rel.
  - intros a s. apply entered_well_formed.
  - intros a s. apply entered_none.
  - intros a s H _ _. by apply entered_push.
  - intros a s H _. by apply entered_render.
  - intros a. apply notifyAll_preserves. intros s s'. apply rendering_notify_rel.
  - intros a s. apply rendering_done.
  - intros a s. apply rendering_well_formed.
Qed.

Lemma initializeComponents_triple (I E : loader → Prop) (fuel : nat) :
  (∀ sName oFunction element,
     triple I (instantiate fuel sName oFunction element) (λ _, I) E) →
  (∀ s, I s → E s) →
  triple I (initializeComponents fuel) (λ _, I) E.
Proof.
  intros H HIE. unfold initializeComponents.
  apply triple_get. intros st0.
  eapply triple_weaken with (P' := I) (Q' := λ _, I) (E' := E);
    [| by intros ? [] |done|done].
  induction (_availableComponents st0) as [|d l IH]; [by apply triple_ret|].
  cbn [forEach]. eapply triple_bind; [|intros u; exact IH].
  unfold initialize_component. apply triple_get. intros s0.
  eapply triple_weaken with (P' := I) (Q' := λ _, I) (E' := E);
    [| by intros ? [] |done|done].
  destruct (hash_get (_componentsHash s0) (name d)) as [arr| |].
  - induction arr as [|e arr IHa]; [by apply triple_ret|].
    cbn [forEach]. eapply triple_bind; [apply H|intros u; exact IHa].
  - by apply triple_throw.
  - by apply triple_ret.
Qed.

Lemma pass_inv_start (st : loader) : well_formed st → pass_inv st None st.
Proof. intros Hwf. split; try done. intros id a _ Ha Hnew. congruence. Qed.

Lemma empty_loader_well_formed (body : node) (els : gmap elem element)
    (draws : list N) :
  well_formed (empty_loader body els draws).
Proof.
  split; cbn.
  - intros id a Ha. by rewrite lookup_empty in Ha.
  - constructor.
  - intros a Ha. by apply elem_of_nil in Ha.
  - intros id Hid. by apply elem_of_nil in Hid.
Qed.

Lemma perform_well_formed (fuel : nat) (c : call) :
  preserves well_formed (perform fuel c).
Proof.
  assert (preserves well_formed (initializeComponents fuel)) as Hinit.
  { intros st Hst.
    pose proof (initializeComponents_triple (pass_inv st None) well_formed fuel
                  (λ n f e, instantiate_pass_inv fuel n f e st)
                  (λ s H, pi_wf st None s H) st (pass_inv_start st Hst)) as H.
    destruct (initializeComponents fuel st) as [[] s|x s|]; [|done|done].
    by destruct H. }
  assert (∀ context, preserves well_formed (scan context)) as Hscan.
  { intros context. apply scan_preserves. intros f s Hs.
    by apply (well_formed_ext s). }
  destruct c as [sName oFunction|context| |context| |e d v o]; cbn [perform].
  - apply register_preserves. intros f s Hs. by apply (well_formed_ext s).
  - apply Hscan.
  - exact Hinit.
  - unfold checkForNewComponents. eapply triple_bind; [apply Hscan|].
    intros u. exact Hinit.
  - apply notifyAll_preserves. intros s s'. apply well_formed_notify_rel.
  - apply triple_modify. intros s Hs. by apply (well_formed_ext s).
Qed.

(** Every state a session reaches from a well-formed one is well-formed; the
    loader starts in one. *)
Lemma session_well_formed (fuel : nat) (calls : list call) (st st' : loader) :
  well_formed st → session fuel calls st = Some st' → well_formed st'.
Proof.
  revert st. induction calls as [|c calls IH]; intros st Hwf.
  - by intros [= <-].
  - cbn [session]. pose proof (perform_well_formed fuel c st Hwf) as Hc.
    destruct (perform fuel c st) as [[] s1|e s1|]; cbn [final_state]; [| |done];
      by apply IH.
Qed.









(** ** The knob widget *)

Section KnobFacts.

Variable value : Type.
Variable of_string : string → value.
Variable JSON_parse : string → option (Knob.parsed value).

(** The text [[object Object]] is not a JSON text: after the bracket a JSON
    value must follow, and none begins with the letter o. *)
Hypothesis object_tag_rejected : JSON_parse "[object Object]" = None.

(** C8. The claim fails on the code: with the attribute absent, [init]
    passes the object [{}] to [JSON.parse], which parses the text
    [[object Object]] and raises; the defaults are never merged. *)
Theorem init_without_settings_raises (c : Knob.canvas value) (k : Knob.knob value)
    (context : gmap string value) :
  Knob.getContext_2d value c = Some context →
  Knob.data_canvas_settings value c = None →
  Knob.init value of_string JSON_parse c k
  = Knob.Raised value SyntaxError
      {| Knob.ctx := Some context; Knob.settings := Knob.settings value k |}.
Proof.
  intros Hctx Hattr. unfold Knob.init, Knob.read_settings.
  rewrite Hctx, Hattr. cbn [Knob.ToString]. by rewrite object_tag_rejected.
Qed.

Lemma extend_lookup (out : gmap string value) (a b : Knob.parsed value) (key : string) :
  Knob.falsy value a = false → Knob.falsy value b = false →
  Knob.extend value out [a; b] !! key
  = match Knob.own_properties value b !! key with
    | Some v => Some v
    | None => match Knob.own_properties value a !! key with
              | Some v => Some v
              | None => out !! key
              end
    end.
Proof.
  intros Ha Hb. unfold Knob.extend. cbn [foldl]. rewrite Ha, Hb.
  rewrite !lookup_union.
  destruct (Knob.own_properties value b !! key) as [v|];
    destruct (Knob.own_properties value a !! key) as [w|];
    destruct (out !! key) as [u|]; done.
Qed.

(** With the attribute present and parsed to an object, [init] completes
    and in the merged settings the values of the attribute win over the
    defaults. *)
Lemma init_with_settings_merges (c : Knob.canvas value) (k : Knob.knob value)
    (context : gmap string value) (s : string) (p : Knob.parsed value) :
  Knob.getContext_2d value c = Some context →
  Knob.data_canvas_settings value c = Some s → s ≠ "" →
  JSON_parse s = Some p → Knob.falsy value p = false →
  ∃ k', Knob.init value of_string JSON_parse c k = Knob.Done value k'
    ∧ ∀ key,
        Knob.settings value k' !! key
        = match Knob.own_properties value p !! key with
          | Some v => Some v
          | None => match Knob.defaults value of_string !! key with
                    | Some v => Some v
                    | None => Knob.settings value k !! key
                    end
          end.
Proof.
  intros Hctx Hattr Hs Hp Hf. unfold Knob.init, Knob.read_settings.
  rewrite Hctx, Hattr.
  destruct (String.eqb_spec s "") as [->|_]; [done|].
  cbn [Knob.ToString]. rewrite Hp. eexists. split; [done|].
  intros key. cbn [Knob.settings]. by rewrite extend_lookup.
Qed.

(** Without a drawing context [init] returns at once, settings untouched. *)
Lemma init_without_context (c : Knob.canvas value) (k : Knob.knob value) :
  Knob.getContext_2d value c = None →
  Knob.init value of_string JSON_parse c k
  = Knob.Done value {| Knob.ctx := None; Knob.settings := Knob.settings value k |}.
Proof. intros Hctx. unfold Knob.init. by rewrite Hctx. Qed.

End KnobFacts.

Lemma init_without_settings_raises_witness :
  Knob.toy_parse "[object Object]" = None
  ∧ Knob.init string id Knob.toy_parse Knob.bare_canvas (Knob.created string)
    = Knob.Raised string SyntaxError
        {| Knob.ctx := Some {["lineWidth" := "1"]}; Knob.settings := ∅ |}.
Proof.
  split; [reflexivity|].
  apply (init_without_settings_raises string id Knob.toy_parse eq_refl
           Knob.bare_canvas (Knob.created string) {["lineWidth" := "1"]});
    reflexivity.
Defined.

(** ** A loader whose flag stays up *)

Lemma held_refl (st : loader) : notifying st = true → held st st.
Proof. intros H. split; [done| |done]. exists []. by rewrite app_nil_r. Qed.

Lemma held_ext (st s s' : loader) :
  notifying s' = notifying s →
  _registeredForNotifications s' = _registeredForNotifications s →
  (∀ id, render_count id (trace s') = render_count id (trace s)) →
  held st s → held st s'.
Proof.
  intros Hn Hq Ht [Hf Hqs Hr]. split.
  - by rewrite Hn.
  - by rewrite Hq.
  - intros b Hb. rewrite Ht. by apply Hr.
Qed.

Lemma render_count_snoc_other (id : string) (t : list event) (ev : event) :
  ev ≠ EvRender id → render_count id (t ++ [ev]) = render_count id t.
Proof.
  intros Hev. rewrite render_count_app.
  rewrite (render_count_absent id [ev]); [lia|].
  intros Hin%list_elem_of_singleton. congruence.
Qed.

Lemma held_notify_rel (st s s' : loader) :
  held st s → notify_rel s s' → held st s'.
Proof.
  intros [Hf Hqs Hr] (b & q' & evs & -> & Hb & _ & _ & Hup).
  destruct (Hup Hf) as [-> ->]. rewrite (Hb Hf). split; [done|exact Hqs|].
  intros c Hc. cbn. rewrite app_nil_r. by apply Hr.
Qed.

Lemma held_push (st s : loader) (a : componentAPI) :
  held st s → held st (set_registeredForNotifications (λ q, q ++ [a]) s).
Proof.
  intros [Hf [extra Hqs] Hr]. split; [done| |done].
  exists (extra ++ [a]). cbn. by rewrite Hqs, app_assoc.
Qed.

Lemma held_render (st0 st s : loader) (a : componentAPI) :
  entered st0 a s → held st s → held st (add_event (EvRender (api_id a)) s).
Proof.
  intros (_ & _ & _ & Hnq & _) [Hf [extra Hqs] Hr]. split; [done|by exists extra|].
  intros b Hb.
  change (render_count (api_id b) (trace s ++ [EvRender (api_id a)])
          = render_count (api_id b) (trace st)).
  rewrite render_count_snoc_other; [by apply Hr|].
  intros [= Heq]. apply Hnq. rewrite Heq.
  apply list_elem_of_In, in_map, list_elem_of_In. rewrite Hqs.
  apply elem_of_app. by left.
Qed.

Lemma instantiate_held (fuel : nat) (sName : string) (oFunction : jsfunc)
    (e : elem) (st0 st : loader) :
  triple (λ s, pass_inv st0 None s ∧ held st s)
    (instantiate fuel sName oFunction e)
    (λ _ s, pass_inv st0 None s ∧ held st s)
    (λ s, well_formed s ∧ held st s).
Proof.
  assert (∀ s evs, (∀ id, EvRender id ∉ evs) →
            ∀ id, render_count id (trace s ++ evs) = render_count id (trace s)) as Hcount.
  { intros s evs Hevs id. rewrite render_count_app, (render_count_absent id evs); [lia|].
    apply Hevs. }
  assert (∀ (ev : event) id, (∀ id', ev ≠ EvRender id') → EvRender id ∉ [ev]) as Hone.
  { intros ev id Hev Hin%list_elem_of_singleton. by apply (Hev id). }
  apply (instantiate_triple fuel sName oFunction e
           (λ s, pass_inv st0 None s ∧ held st s)
           (λ a s, entered st0 a s ∧ held st s)
           (λ a s, rendering st0 a s ∧ held st s)).
  - by intros s H _.
  - intros s [[Hwf _ _ _] Hh] _ _. split.
    + by apply (well_formed_ext s).
    + by apply (held_ext st s).
  - intros s body msg [[Hwf _ _ _] Hh] _ _ _. split.
    + apply (well_formed_ext s); try done. intros id. by apply render_in_snoc.
    + apply (held_ext st s); try done. intros id. by apply render_count_snoc_other.
  - intros s body this_members m id rest [[Hwf _ _ _] Hh] _ _ _ _. split.
    + apply (well_formed_ext s); try done. intros id'. by apply render_in_snoc.
    + apply (held_ext st s); try done. intros id'. by apply render_count_snoc_other.
  - intros s body this_members r m id rest [H Hh] _ _ _ _ Hd. split.
    + apply pass_inv_entered; [done|]. by destruct (draw_id_fresh _ _ _ _ Hd).
    + apply (held_ext st s); try done. intros id'. by apply render_count_snoc_other.
  - intros a s [H Hh]. split; [by apply entered_init|].
    apply (held_ext st s); try done. intros id'. by apply render_count_snoc_other.
  - intros a. apply notifyAll_preserves. intros s s' [H Hh] Hrel. split.
    + by eapply entered_notify_rel.
    + by eapply held_notify_rel.
  - intros a s [H Hh]. split; [by eapply entered_well_formed|done].
  - intros a s [H Hh] Hnone. split; [by eapply entered_none|done].
  - intros a s [H Hh] _ _. split; [by apply entered_push|by apply held_push].
  - intros a s [H Hh] _ Hv. split; [by apply entered_render|by eapply held_render].
  - intros a. apply notifyAll_preserves. intros s s' [H Hh] Hrel. split.
    + by eapply rendering_notify_rel.
    + by eapply held_notify_rel.
  - intros a s [H Hh]. split; [by eapply rendering_done|done].
  - intros a s [H Hh]. split; [by eapply rendering_well_formed|done].
Qed.

Lemma perform_held (fuel : nat) (c : call) (st : loader) :
  preserves (λ s, well_formed s ∧ held st s) (perform fuel c).
Proof.
  assert (preserves (λ s, well_formed s ∧ held st s) (initializeComponents fuel))
    as Hinit.
  { intros s0 [Hwf Hh].
    pose proof (initializeComponents_triple
                  (λ s, pass_inv s0 None s ∧ held st s)
                  (λ s, well_formed s ∧ held st s) fuel
                  (λ n f e, instantiate_held fuel n f e s0 st)
                  (λ s H, conj (pi_wf s0 None s (proj1 H)) (proj2 H))
                  s0 (conj (pass_inv_start s0 Hwf) Hh)) as H.
    destruct (initializeComponents fuel s0) as [[] s|x s|]; [|done|done].
    destruct H as [[Hwf' _ _ _] Hh']. done. }
  assert (∀ context, preserves (λ s, well_formed s ∧ held st s) (scan context))
    as Hscan.
  { intros context. apply scan_preserves. intros f s [Hwf Hh]. split.
    - by apply (well_formed_ext s).
    - by apply (held_ext st s). }
  destruct c as [sName oFunction|context| |context| |e d v o]; cbn [perform].
  - apply register_preserves. intros f s [Hwf Hh]. split.
    + by apply (well_formed_ext s).
    + by apply (held_ext st s).
  - apply Hscan.
  - exact Hinit.
  - unfold checkForNewComponents. eapply triple_bind; [apply Hscan|].
    intros u. exact Hinit.
  - apply notifyAll_preserves. intros s s' [Hwf Hh] Hrel. split.
    + by eapply well_formed_notify_rel.
    + by eapply held_notify_rel.
  - apply triple_modify. intros s [Hwf Hh]. split.
    + by apply (well_formed_ext s).
    + by apply (held_ext st s).
Qed.

(** Once the flag is up it stays up through whatever the page calls, and
    what was queued stays queued and unrendered. *)
Lemma session_held (fuel : nat) (calls : list call) (st s s' : loader) :
  well_formed s → held st s → session fuel calls s = Some s' →
  well_formed s' ∧ held st s'.
Proof.
  revert s. induction calls as [|c calls IH]; intros s Hwf Hh.
  - by intros [= <-].
  - cbn [session]. pose proof (perform_held fuel c st s (conj Hwf Hh)) as Hc.
    destruct (perform fuel c s) as [[] s1|e s1|]; cbn [final_state]; [| |done];
      destruct Hc; by apply IH.
Qed.

(** C10. When a [render] raises during [notifyAll], the call ends with the
    flag [notifying] still up and the queue as it was.  From then on,
    whatever the page calls: the flag is up, so every call of [notifyAll]
    returns the state it is given; the instances that were queued are still
    queued; and none of them is rendered. *)
Theorem notifyAll_raise_blocks (fuel : nat) (st st' : loader) (e : exn) :
  well_formed st →
  notifyAll fuel st = Throws e st' →
  notifying st' = true
  ∧ _registeredForNotifications st' = _registeredForNotifications st
  ∧ ∀ fuel' calls st'',
      session fuel' calls st' = Some st'' →
      notifying st'' = true
      ∧ (∀ fuel'', notifyAll (S fuel'') st'' = Normal tt st'')
      ∧ (∃ extra, _registeredForNotifications st''
                  = _registeredForNotifications st' ++ extra)
      ∧ ∀ b, b ∈ _registeredForNotifications st' →
             render_count (api_id b) (trace st'')
             = render_count (api_id b) (trace st').
Proof.
  intros Hwf Hrun.
  pose proof (notifyAll_notify_rel fuel st) as Hrel.
  pose proof (notifyAll_spec fuel st) as Hspec.
  rewrite Hrun in Hrel, Hspec.
  pose proof (well_formed_notify_rel st st' Hwf Hrel) as Hwf'.
  destruct Hspec as (_ & l1 & x & l2 & msg & Hq & _ & _ & _ & -> & _).
  split; [done|]. split; [done|].
  intros fuel' calls st'' Hsession.
  destruct (session_held fuel' calls _ _ st'' Hwf'
              (held_refl (set_notifying true
                            (append_trace (renders st l1 ++ [EvRender (api_id x)]) st))
                         eq_refl) Hsession)
    as [_ [Hf Hqs Hr]].
  split; [done|]. split; [|by split].
  intros fuel''. by apply notifyAll_guarded.
Qed.

Lemma notifyAll_raise_blocks_witness :
  well_formed Page.blocking
  ∧ notifyAll 2 Page.blocking = Throws (ThrowString "boom") Page.blocked
  ∧ notifying Page.blocked = true
  ∧ _registeredForNotifications Page.blocked = _registeredForNotifications Page.blocking
  ∧ session 2 [NotifyAll; InitializeComponents; NotifyAll] Page.blocked
    = Some Page.blocked.
Proof.
  assert (well_formed Page.blocking) as Hwf.
  { split.
    - intros id a Ha. cbn in Ha.
      apply lookup_insert_Some in Ha as [[<- <-]|[_ Ha]]; [reflexivity|].
      apply lookup_insert_Some in Ha as [[<- <-]|[_ Ha]]; [reflexivity|].
      by rewrite lookup_empty in Ha.
    - apply (bool_decide_unpack _). vm_compute. exact I.
    - intros a Ha. cbn in Ha.
      apply elem_of_cons in Ha as [->|Ha]; [reflexivity|].
      apply list_elem_of_singleton in Ha as ->. reflexivity.
    - intros id Hid. by apply elem_of_nil in Hid. }
  split; [exact Hwf|]. split; [reflexivity|].
  destruct (notifyAll_raise_blocks 2 Page.blocking Page.blocked (ThrowString "boom")
              Hwf eq_refl) as (H1 & H2 & _).
  split; [exact H1|]. split; [exact H2|]. reflexivity.
Defined.

(** * Further properties of the loader and of the knob *)

(** ** What a scan adds, and when it raises *)

Lemma occurrences_cons (sName m : string) (names : list string) :
  occurrences sName (m :: names)
  = if decide (m = sName) then S (occurrences sName names)
    else occurrences sName names.
Proof.
  unfold occurrences. cbn [List.filter].
  destruct (String.eqb_spec sName m) as [->|Hne].
  - by rewrite decide_True.
  - by rewrite decide_False by congruence.
Qed.

Lemma forEach_scan_class_adds (element : elem) (tokens : list string)
    (s s' : loader) :
  forEach (scan_class element) tokens s = Normal tt s' →
  (∃ h, s' = set_componentsHash (λ _, h) s)
  ∧ ∀ sName, bucket s' sName
             = bucket s sName
               ++ replicate (occurrences sName (omap marker_of tokens)) element.
Proof.
  revert s. induction tokens as [|sClass tokens IH]; intros s.
  - intros [= <-]. split; [exists (_componentsHash s); by destruct s|].
    intros n. by rewrite app_nil_r.
  - cbn [forEach]. unfold bind at 1.
    pose proof (scan_class_pushes element sClass s) as Hc.
    destruct (scan_class element sClass s) as [[] s1|e s1|]; [|done|done].
    intros Hrest. destruct (IH s1 Hrest) as [[h ->] Hb].
    cbn [omap list_omap]. destruct (marker_of sClass) as [m|]; subst s1.
    + split; [by eexists|]. intros n. rewrite Hb, bucket_insert, occurrences_cons.
      destruct (decide (m = n)) as [->|]; [|done].
      by rewrite <- app_assoc.
    + split; [by eexists|]. intros n. by rewrite Hb.
Qed.

Lemma forEach_scan_element_adds (l : list elem) (s s' : loader) :
  forEach scan_element l s = Normal tt s' →
  (∃ h, s' = set_componentsHash (λ _, h) s)
  ∧ ∀ sName, bucket s' sName = bucket s sName ++ scanned_under s sName l.
Proof.
  revert s. induction l as [|x l IH]; intros s.
  - intros [= <-]. split; [exists (_componentsHash s); by destruct s|].
    intros n. by rewrite app_nil_r.
  - cbn [forEach]. unfold bind at 1.
    destruct (scan_element x s) as [[] s1|e s1|] eqn:Hx; [|done|done].
    intros Hrest. destruct (IH s1 Hrest) as [[h ->] Hb].
    assert ((∃ h1, s1 = set_componentsHash (λ _, h1) s)
            ∧ ∀ n, bucket s1 n
                   = bucket s n
                     ++ (if componentized s x then []
                         else replicate (occurrences n (marker_names s x)) x))
      as [[h1 ->] Hb1].
    { unfold scan_element, bind, get in Hx. unfold marker_names, class_tokens.
      destruct (componentized s x); cbn [negb] in Hx.
      - injection Hx as <-. split; [exists (_componentsHash s); by destruct s|].
        intros n. by rewrite app_nil_r.
      - destruct (el_class (get_element s x)) as [c|]; [|done].
        by apply forEach_scan_class_adds. }
    split; [by eexists|]. intros n. rewrite Hb, Hb1.
    unfold scanned_under. cbn [flat_map]. by rewrite <- app_assoc.
Qed.

(** ** Whether a scan raises *)

Lemma own_buckets_push (s : loader) (sName : string) (arr : list elem) :
  own_buckets s → inherited_by_object sName = false →
  own_buckets (set_componentsHash (<[sName := arr]>) s).
Proof.
  intros H Hn m Hm. cbn. rewrite lookup_insert_ne; [by apply H|]. congruence.
Qed.

Lemma forEach_scan_class_outcome (element : elem) (tokens : list string) (s : loader) :
  own_buckets s →
  ∃ s', (∃ h, s' = set_componentsHash (λ _, h) s) ∧ own_buckets s'
        ∧ forEach (scan_class element) tokens s
          = if forallb (λ sName, negb (inherited_by_object sName))
                 (omap marker_of tokens)
            then Normal tt s' else Throws TypeError s'.
Proof.
  revert s. induction tokens as [|sClass tokens IH]; intros s Hs.
  - exists s. split; [exists (_componentsHash s); by destruct s|]. by split.
  - cbn [forEach omap list_omap]. unfold bind at 1. rewrite scan_class_marker.
    destruct (marker_of sClass) as [m|].
    + unfold bind, get, hash_get. cbn [forallb].
      destruct (inherited_by_object m) eqn:Hm; cbn [negb andb].
      * rewrite (Hs m Hm). exists s.
        split; [exists (_componentsHash s); by destruct s|]. by split.
      * destruct (_componentsHash s !! m) as [arr|]; unfold modify.
        -- destruct (IH _ (own_buckets_push s m (arr ++ [element]) Hs Hm))
             as (s' & [h ->] & Ho & ->). exists (set_componentsHash (λ _, h) s).
           split; [by eexists|]. by split.
        -- destruct (IH _ (own_buckets_push s m [element] Hs Hm))
             as (s' & [h ->] & Ho & ->). exists (set_componentsHash (λ _, h) s).
           split; [by eexists|]. by split.
    + unfold ret. apply IH, Hs.
Qed.

Lemma forEach_scan_element_outcome (st : loader) (l : list elem) (s : loader) :
  (∃ h, s = set_componentsHash (λ _, h) st) → own_buckets s →
  (∀ e, e ∈ l → is_Some (el_class (get_element st e))) →
  ∃ s', (∃ h, s' = set_componentsHash (λ _, h) st) ∧ own_buckets s'
        ∧ forEach scan_element l s
          = if scan_safe st l then Normal tt s' else Throws TypeError s'.
Proof.
  revert s. induction l as [|x l IH]; intros s Hframe Hs Hclass.
  - exists s. by split.
  - cbn [forEach scan_safe forallb]. unfold bind at 1.
    assert (∃ s1, (∃ h, s1 = set_componentsHash (λ _, h) st) ∧ own_buckets s1
                  ∧ scan_element x s
                    = if componentized st x
                         || forallb (λ sName, negb (inherited_by_object sName))
                              (marker_names st x)
                      then Normal tt s1 else Throws TypeError s1)
      as (s1 & Hf1 & Ho1 & ->).
    { destruct Hframe as [h ->]. unfold scan_element, bind, get.
      change (componentized (set_componentsHash (λ _, h) st) x)
        with (componentized st x).
      destruct (componentized st x); cbn [negb orb].
      - exists (set_componentsHash (λ _, h) st). split; [by eexists|]. by split.
      - change (get_element (set_componentsHash (λ _, h) st) x) with (get_element st x).
        unfold marker_names, class_tokens.
        destruct (Hclass x) as [c ->]; [left|].
        destruct (forEach_scan_class_outcome x (JsString.split " " c) _ Hs)
          as (s' & [h' ->] & Ho & ->).
        exists (set_componentsHash (λ _, h') st). split; [by eexists|]. by split. }
    destruct (componentized st x
              || forallb (λ sName, negb (inherited_by_object sName)) (marker_names st x));
      cbn [andb].
    + apply IH; try done. intros e He. apply Hclass. by right.
    + by exists s1.
Qed.

Lemma querySelectorAll_class (st : loader) (context : node) (e : elem) :
  e ∈ querySelectorAll st context → is_Some (el_class (get_element st e)).
Proof.
  unfold querySelectorAll. rewrite list_elem_of_In, filter_In.
  intros [_ H]. destruct (el_class (get_element st e)); [eauto|done].
Qed.

Lemma scan_outcome (context : option node) (st : loader) :
  own_buckets st →
  ∃ st', (∃ h, st' = set_componentsHash (λ _, h) st) ∧ own_buckets st'
         ∧ scan context st
           = if scan_safe st (querySelectorAll st (default (document_body st) context))
             then Normal tt st' else Throws TypeError st'.
Proof.
  intros Hs. unfold scan, bind, get.
  apply forEach_scan_element_outcome; [exists (_componentsHash st); by destruct st|done|].
  intros e. apply querySelectorAll_class.
Qed.

(** A property that does not depend on the elements, the trace, the random
    draws, the table, the queue or the flag is kept by [instantiate]. *)
Lemma instantiate_frame (I : loader → Prop) (fuel : nat) (sName : string)
    (oFunction : jsfunc) (element : elem) :
  (∀ s f, I s → I (set_elements f s)) →
  (∀ s evs, I s → I (append_trace evs s)) →
  (∀ s r, I s → I (set_random r s)) →
  (∀ s f, I s → I (set_registeredComponents f s)) →
  (∀ s f, I s → I (set_registeredForNotifications f s)) →
  (∀ s b, I s → I (set_notifying b s)) →
  preserves I (instantiate fuel sName oFunction element).
Proof.
  intros Hel Htr Hrnd Hreg Hq Hn.
  assert (∀ s s', I s → notify_rel s s' → I s') as Hrel.
  { intros s s' Hs (b & q' & evs & -> & _). by apply Hn, Hq, Htr. }
  apply (instantiate_triple fuel sName oFunction element I (λ _, I) (λ _, I)).
  - done.
  - intros st H _ _. by apply Hel.
  - intros st body msg H _ _ _. by apply (Htr _ [_]), Hel.
  - intros st body this_members m id rest H _ _ _ _. by apply Hrnd, (Htr _ [_]), Hel.
  - intros st body this_members r m id rest H _ _ _ _ _.
    by apply Hreg, Hrnd, (Htr _ [_]), Hel.
  - intros a s H. by apply (Htr _ [_]).
  - intros a. by apply notifyAll_preserves.
  - done.
  - done.
  - intros a s H _ _. by apply Hq.
  - intros a s H _ _. by apply (Htr _ [_]).
  - intros a. by apply notifyAll_preserves.
  - done.
  - done.
Qed.

Lemma perform_frame (I : loader → Prop) (fuel : nat) (c : call) :
  (∀ s f, I s → I (set_elements f s)) →
  (∀ s evs, I s → I (append_trace evs s)) →
  (∀ s r, I s → I (set_random r s)) →
  (∀ s f, I s → I (set_registeredComponents f s)) →
  (∀ s f, I s → I (set_registeredForNotifications f s)) →
  (∀ s b, I s → I (set_notifying b s)) →
  (∀ sName oFunction, c = Register sName oFunction →
     preserves I (register sName oFunction)) →
  (∀ context, c = Scan context ∨ c = CheckForNewComponents context →
     preserves I (scan context)) →
  preserves I (perform fuel c).
Proof.
  intros Hel Htr Hrnd Hreg Hq Hn Hregister Hscan.
  assert (preserves I (initializeComponents fuel)) as Hinit.
  { apply initializeComponents_preserves. intros. by apply instantiate_frame. }
  destruct c as [sName oFunction|context| |context| |e d v o]; cbn [perform].
  - by apply Hregister.
  - apply Hscan. by left.
  - exact Hinit.
  - unfold checkForNewComponents. eapply triple_bind; [apply Hscan; by right|].
    intros u. exact Hinit.
  - apply notifyAll_preserves.
    intros s s' Hs (b & q' & evs & -> & _). by apply Hn, Hq, Htr.
  - apply triple_modify. intros s Hs. by apply Hel.
Qed.

(** Over a session no bucket is ever stored under the name of a member of
    [Object.prototype]. *)
Lemma perform_own_buckets (fuel : nat) (c : call) :
  preserves own_buckets (perform fuel c).
Proof.
  apply perform_frame; try done.
  - intros sName oFunction _. by apply register_preserves.
  - intros context _ st Hst.
    destruct (scan_outcome context st Hst) as (st' & _ & Ho & ->).
    by destruct (scan_safe _ _).
Qed.

Lemma session_own_buckets (fuel : nat) (calls : list call) (st st' : loader) :
  own_buckets st → session fuel calls st = Some st' → own_buckets st'.
Proof.
  revert st. induction calls as [|c calls IH]; intros st Hst.
  - by intros [= <-].
  - cbn [session]. pose proof (perform_own_buckets fuel c st Hst) as Hc.
    destruct (perform fuel c st) as [[] s1|e s1|]; cbn [final_state]; [| |done];
      by apply IH.
Qed.

Lemma empty_loader_own_buckets (body : node) (els : gmap elem element)
    (draws : list N) :
  own_buckets (empty_loader body els draws).
Proof. intros n _. apply lookup_empty. Qed.

(** X1. A scan that returns changed nothing but the buckets, and added to
    the bucket of each name every selected element that is not flagged, once
    for each class token that carries the name, in document order. *)
Theorem scan_adds_once_per_marker_token (context : option node) (st st' : loader) :
  scan context st = Normal tt st' →
  st' = set_componentsHash (λ _, _componentsHash st') st
  ∧ ∀ sName,
      bucket st' sName
      = bucket st sName
        ++ scanned_under st sName
             (querySelectorAll st (default (document_body st) context)).
Proof.
  unfold scan, bind, get. intros Hrun.
  destruct (forEach_scan_element_adds _ _ _ Hrun) as [[h ->] Hb]. by split.
Qed.

Lemma scan_adds_once_per_marker_token_witness :
  ∃ st', scan None TwoMarkers.page = Normal tt st'
         ∧ bucket st' "a" = [1%nat] ∧ bucket st' "b" = [1%nat]
         ∧ bucket st' "c" = [].
Proof.
  destruct (scan None TwoMarkers.page) as [[] st'|e st'|] eqn:Hrun;
    [|by vm_compute in Hrun|by vm_compute in Hrun].
  exists st'. split; [done|].
  destruct (scan_adds_once_per_marker_token None TwoMarkers.page st' Hrun) as [_ Hb].
  rewrite !Hb. repeat split; reflexivity.
Defined.

(** X2. In a state the loader reaches, [scan] raises exactly when an
    element it selects, not flagged, carries a marker token named after a
    member of [Object.prototype] (as in [js-component-constructor]): the
    lookup [_componentsHash[sName]] finds the inherited member, which has no
    [push].  The raise is a [TypeError]; however the scan ends, it changed
    nothing but the buckets. *)
Theorem scan_raises_on_prototype_names (fuel : nat) (body : node)
    (els : gmap elem element) (draws : list N) (calls : list call)
    (st : loader) (context : option node) :
  session fuel calls (empty_loader body els draws) = Some st →
  ∃ st',
    scan context st
    = (if scan_safe st (querySelectorAll st (default (document_body st) context))
       then Normal tt st' else Throws TypeError st')
    ∧ st' = set_componentsHash (λ _, _componentsHash st') st.
Proof.
  intros Hreach.
  destruct (scan_outcome context st) as (st' & [h ->] & _ & Hrun).
  - eapply session_own_buckets; [|exact Hreach]. apply empty_loader_own_buckets.
  - by exists (set_componentsHash (λ _, h) st).
Qed.

Lemma scan_raises_on_prototype_names_witness :
  session 2 [] Prototype.page = Some Prototype.page
  ∧ ∃ st', scan None Prototype.page = Throws TypeError st'
           ∧ st' = set_componentsHash (λ _, _componentsHash st') Prototype.page
           ∧ bucket st' "widget" = [].
Proof.
  split; [reflexivity|].
  destruct (scan_raises_on_prototype_names 2 _ _ _ [] Prototype.page None eq_refl)
    as (st' & Hrun & Hst').
  exists st'. split; [exact Hrun|]. split; [exact Hst'|].
  vm_compute in Hrun. by injection Hrun as <-.
Defined.

(** X3. Scanning twice before initializing puts every element the scan
    discovers in its buckets twice: [scan] does not deduplicate. *)
Theorem rescan_before_initialization_duplicates (context : option node)
    (st st1 st2 : loader) :
  scan context st = Normal tt st1 →
  scan context st1 = Normal tt st2 →
  ∀ sName,
    bucket st2 sName
    = bucket st sName
      ++ scanned_under st sName
           (querySelectorAll st (default (document_body st) context))
      ++ scanned_under st sName
           (querySelectorAll st (default (document_body st) context)).
Proof.
  unfold scan, bind, get. intros H1 H2 n.
  destruct (forEach_scan_element_adds _ _ _ H1) as [[h ->] Hb1].
  destruct (forEach_scan_element_adds _ _ _ H2) as [_ Hb2].
  rewrite Hb2, Hb1. by rewrite <- app_assoc.
Qed.

Lemma rescan_before_initialization_duplicates_witness :
  ∃ st1 st2,
    scan None Page.fresh = Normal tt st1 ∧ scan None st1 = Normal tt st2
    ∧ bucket st1 "widget" = [1%nat; 2%nat]
    ∧ bucket st2 "widget" = [1%nat; 2%nat; 1%nat; 2%nat].
Proof.
  destruct (scan None Page.fresh) as [[] st1|e st1|] eqn:H1;
    [|by vm_compute in H1|by vm_compute in H1].
  destruct (scan None st1) as [[] st2|e st2|] eqn:H2;
    [|vm_compute in H1; injection H1 as <-; by vm_compute in H2
     |vm_compute in H1; injection H1 as <-; by vm_compute in H2].
  exists st1, st2. split; [done|]. split; [done|].
  split; [vm_compute in H1; by injection H1 as <-|].
  rewrite (rescan_before_initialization_duplicates None Page.fresh st1 st2 H1 H2).
  reflexivity.
Defined.

(** ** register: names that cannot be registered, and the order of the
    descriptors *)

Lemma array_typeof_undefined_plain {A} (arr : list A) (sName : string) :
  array_typeof_undefined arr sName = true → plain_name sName.
Proof.
  unfold array_typeof_undefined, inherited_by_object.
  rewrite negb_true_iff, !orb_false_iff.
  intros [[[_ Hlen] Harr] Hobj].
  apply String.eqb_neq in Hlen. apply bool_decide_eq_false in Harr, Hobj. done.
Qed.

(** X4. [register] raises its duplicate-name error, whatever was
    registered before, for [length] and for the name of every member of
    [Array.prototype] or [Object.prototype]: for them
    [typeof(_availableComponents[sName])] is not ["undefined"]. *)
Theorem register_builtin_name_raises (sName : string) (oFunction : jsfunc)
    (st : loader) :
  sName = "length" ∨ sName ∈ Array_prototype_names ∨ sName ∈ Object_prototype_names →
  register sName oFunction st = Throws (ThrowString (duplicate_message sName)) st.
Proof.
  intros Hname. rewrite register_outcome.
  destruct (array_typeof_undefined (_availableComponents st) sName) eqn:Hu; [|done].
  destruct (array_typeof_undefined_plain _ _ Hu) as (H1 & H2 & H3).
  by destruct Hname as [?|[?|?]].
Qed.

Lemma register_builtin_name_raises_witness :
  register "push" (Page.widget [] []) Page.fresh
  = Throws (ThrowString "There is already a registered component named push")
      Page.fresh
  ∧ register "constructor" (Page.widget [] []) Page.fresh
    = Throws (ThrowString "There is already a registered component named constructor")
        Page.fresh.
Proof.
  split.
  - apply (register_builtin_name_raises "push"). right. left.
    apply (bool_decide_unpack _). vm_compute. exact I.
  - apply (register_builtin_name_raises "constructor"). right. right.
    apply (bool_decide_unpack _). vm_compute. exact I.
Defined.

(** What one call does to the descriptors: nothing, or one more at the end,
    under a name that is no property of an array. *)
Lemma perform_descriptors (fuel : nat) (c : call) (st0 : loader) :
  preserves (λ s, ∃ extra,
               _availableComponents s = _availableComponents st0 ++ extra
               ∧ Forall (λ d, plain_name (name d)) extra)
    (perform fuel c).
Proof.
  apply perform_frame; try done.
  - intros sName oFunction _ st (extra & Hst & Hplain). rewrite register_outcome.
    destruct (array_typeof_undefined _ sName) eqn:Hu; [|eauto].
    exists (extra ++ [{| name := sName; func := oFunction |}]). cbn. split.
    + by rewrite Hst, app_assoc.
    + apply Forall_app. split; [done|]. apply Forall_singleton.
      by apply (array_typeof_undefined_plain _ _ Hu).
  - intros context _. by apply scan_preserves.
Qed.

Lemma session_descriptors (fuel : nat) (calls : list call) (st st' : loader) :
  session fuel calls st = Some st' →
  ∃ extra,
    _availableComponents st' = _availableComponents st ++ extra
    ∧ Forall (λ d, plain_name (name d)) extra.
Proof.
  revert st. induction calls as [|c calls IH]; intros st.
  - intros [= <-]. exists []. by rewrite app_nil_r.
  - cbn [session].
    pose proof (perform_descriptors fuel c st st
                  (ex_intro _ [] (conj (eq_sym (app_nil_r _)) (Forall_nil_2 _)))) as Hc.
    destruct (perform fuel c st) as [[] s1|e s1|]; cbn [final_state]; [| |done];
      intros Hrest; destruct Hc as (x1 & H1 & Hp1);
      destruct (IH s1 Hrest) as (x2 & H2 & Hp2);
      exists (x1 ++ x2); (split; [by rewrite H2, H1, app_assoc|by apply Forall_app]).
Qed.

(** X5. Whatever the page calls, descriptors are only ever added at the
    end of the table; none is removed, replaced or moved.  None is added
    under [length] or the name of a member of [Array.prototype] or
    [Object.prototype], so the lookup of its bucket never finds an inherited
    member. *)
Theorem descriptors_only_appended (fuel : nat) (calls : list call) (st st' : loader) :
  session fuel calls st = Some st' →
  ∃ extra,
    _availableComponents st' = _availableComponents st ++ extra
    ∧ ∀ d, d ∈ extra →
        name d ≠ "length" ∧ (name d ∉ Array_prototype_names)
        ∧ (name d ∉ Object_prototype_names)
        ∧ hash_get (_componentsHash st') (name d) ≠ SlotInherited.
Proof.
  intros Hrun. destruct (session_descriptors fuel calls st st' Hrun)
    as (extra & Hav & Hplain).
  exists extra. split; [done|]. rewrite Forall_forall in Hplain.
  intros d Hd. destruct (Hplain d Hd) as (H1 & H2 & H3).
  split; [done|]. split; [done|]. split; [done|].
  unfold hash_get, inherited_by_object.
  destruct (_componentsHash st' !! name d); [done|].
  by rewrite bool_decide_eq_false_2.
Qed.

Lemma descriptors_only_appended_witness :
  session 2 [Scan None; Register "widget" (Page.widget [] [CallNotifyAll]);
             InitializeComponents] Page.fresh = Some Page.loaded
  ∧ ∃ extra,
      _availableComponents Page.loaded = _availableComponents Page.fresh ++ extra
      ∧ ∀ d, d ∈ extra →
          name d ≠ "length" ∧ (name d ∉ Array_prototype_names)
          ∧ (name d ∉ Object_prototype_names)
          ∧ hash_get (_componentsHash Page.loaded) (name d) ≠ SlotInherited.
Proof.
  split; [reflexivity|].
  apply (descriptors_only_appended 2
           [Scan None; Register "widget" (Page.widget [] [CallNotifyAll]);
            InitializeComponents] Page.fresh Page.loaded).
  reflexivity.
Defined.



(** X7. [notifyAll] is idempotent: called again right after a call that
    returned, it changes nothing. *)
Theorem notifyAll_idempotent (fuel : nat) (st st' : loader) :
  notifyAll (S (S fuel)) st = Normal tt st' →
  notifyAll (S (S fuel)) st' = Normal tt st'.
Proof.
  intros Hrun. pose proof (notifyAll_spec (S (S fuel)) st) as Hspec.
  rewrite Hrun in Hspec. destruct (notifying st) eqn:Hn.
  - by subst st'.
  - destruct Hspec as [-> _]. apply notifyAll_nothing_to_render; [done|].
    cbn. intros b Hb%list_elem_of_In. apply filter_In in Hb as [_ Hb].
    change (renderable st b = false). by destruct (renderable st b).
Qed.

Lemma notifyAll_idempotent_witness :
  ∃ st', notifyAll 2 Deferred.one_shown = Normal tt st'
         ∧ st' ≠ Deferred.one_shown
         ∧ notifyAll 2 st' = Normal tt st'.
Proof.
  destruct (notifyAll 2 Deferred.one_shown) as [[] st'|e st'|] eqn:Hrun;
    [|by vm_compute in Hrun|by vm_compute in Hrun].
  exists st'. split; [done|]. split.
  - vm_compute in Hrun. injection Hrun as <-. intros Heq.
    apply (f_equal (λ s, length (_registeredForNotifications s))) in Heq.
    vm_compute in Heq. discriminate Heq.
  - by apply (notifyAll_idempotent 0 Deferred.one_shown st').
Defined.



(** ** What a completed pass of initializeComponents leaves behind *)










Lemma shown_rendered_ext (st0 : loader) (skip : option string) (s s' : loader) :
  _registeredComponents s' = _registeredComponents s →
  _registeredForNotifications s' = _registeredForNotifications s →
  (∀ id, render_count id (trace s') = render_count id (trace s)) →
  shown_rendered st0 skip s → shown_rendered st0 skip s'.
Proof.
  intros Hr Hq Ht H id a Hskip Ha Hnew Hrender Hshown.
  rewrite Hr in Ha. unfold queued_ids. rewrite Hq, Ht. by apply (H id a).
Qed.

(** A call of [notifyAll] does not render an instance that is not queued. *)
Lemma unqueued_notify_rel (s s' : loader) (id : string) :
  id ∉ queued_ids s → notify_rel s s' →
  (id ∉ queued_ids s') ∧ render_count id (trace s') = render_count id (trace s).
Proof.
  intros Hnq (b & q' & evs & -> & _ & Hq' & Hevs & _).
  destruct (notify_rel_queue s q' Hq') as (Hsub & _ & _). split.
  - intros (c & Hc & Hid)%queued_id_elem. apply Hnq.
    apply list_elem_of_In, in_map_iff. exists c. split; [done|].
    apply list_elem_of_In. by apply Hsub.
  - cbn [trace set_notifying set_registeredForNotifications set_registeredComponents set_random set_elements setAttribute_componentized after_register after_construct add_event append_trace].
    rewrite render_count_app, (render_count_absent id evs); [lia|].
    intros Hin. destruct (Hevs _ Hin) as (c & Hc & _ & [= Heq]). apply Hnq.
    rewrite Heq. apply list_elem_of_In, in_map. by apply list_elem_of_In.
Qed.

Lemma shown_rendered_notify_rel (st0 : loader) (skip : option string) (s s' : loader) :
  shown_rendered st0 skip s → notify_rel s s' → shown_rendered st0 skip s'.
Proof.
  intros H Hrel id a Hskip Ha Hnew Hrender Hshown.
  assert (_registeredComponents s' = _registeredComponents s) as Hr
    by (by destruct Hrel as (b & q' & evs & -> & _)).
  rewrite Hr in Ha. destruct (H id a Hskip Ha Hnew Hrender Hshown) as [Hnq Hc].
  destruct (unqueued_notify_rel s s' id Hnq Hrel) as [Hnq' Hc']. by rewrite Hc'.
Qed.

Lemma render_count_snoc_self (id : string) (t : list event) :
  render_count id (t ++ [EvRender id]) = S (render_count id t).
Proof.
  rewrite render_count_app. unfold render_count at 2. cbn [List.filter].
  rewrite String.eqb_refl. cbn. lia.
Qed.

(** Through [instantiate], the instances created visible were rendered once
    and are not queued. *)
Lemma instantiate_shown_rendered (fuel : nat) (sName : string) (oFunction : jsfunc)
    (e : elem) (st0 : loader) :
  triple (λ s, pass_inv st0 None s ∧ shown_rendered st0 None s)
    (instantiate fuel sName oFunction e)
    (λ _ s, pass_inv st0 None s ∧ shown_rendered st0 None s) (λ _, True).
Proof.
  apply (instantiate_triple fuel sName oFunction e
           (λ s, pass_inv st0 None s ∧ shown_rendered st0 None s)
           (λ a s, entered st0 a s ∧ shown_rendered st0 (Some (api_id a)) s)
           (λ a s, rendering st0 a s ∧ shown_rendered st0 (Some (api_id a)) s
                   ∧ (api_id a ∉ queued_ids s)
                   ∧ render_count (api_id a) (trace s) = 1%nat)).
  - by intros st H _.
  - done.
  - done.
  - done.
  - intros st body this_members r m id rest [Hinv Hshown] _ _ _ _ Hd.
    destruct (draw_id_fresh _ _ _ _ Hd) as [Hfree _].
    split; [by apply pass_inv_entered|].
    intros id' a Hskip Ha Hnew Hrender Hvis. cbn in Ha, Hskip.
    rewrite lookup_insert_ne in Ha by congruence.
    destruct (Hshown id' a) as [Hnq Hc]; try done.
    split; [done|]. cbn [trace set_notifying set_registeredForNotifications set_registeredComponents set_random set_elements setAttribute_componentized after_register after_construct add_event append_trace].
    by rewrite render_count_snoc_other.
  - intros a s [Hent Hshown]. split; [by apply entered_init|].
    apply (shown_rendered_ext st0 _ s); try done.
    intros id. cbn [trace set_notifying set_registeredForNotifications set_registeredComponents set_random set_elements setAttribute_componentized after_register after_construct add_event append_trace].
    by rewrite render_count_snoc_other.
  - intros a. apply notifyAll_preserves. intros s s' [Hent Hshown] Hrel.
    split; [by eapply entered_notify_rel|by eapply shown_rendered_notify_rel].
  - done.
  - intros a s [Hent Hshown] Hnone. split; [by apply (entered_none st0 a)|].
    destruct Hent as (_ & Ha & _).
    intros id a' _ Ha' Hnew Hrender Hvis.
    destruct (decide (id = api_id a)) as [->|Hne].
    + assert (a' = a) as -> by congruence. rewrite Hnone in Hrender.
      by destruct Hrender.
    + apply (Hshown id a'); try done. congruence.
  - intros a s [Hent Hshown] Hrender Hhidden. split; [by apply entered_push|].
    destruct Hent as ([_ Hv _ _] & Ha & _).
    intros id a' _ Ha' Hnew Hr Hvis. cbn in Ha'.
    destruct (decide (id = api_id a)) as [->|Hne].
    + assert (a' = a) as -> by congruence. rewrite Hv in Hhidden. congruence.
    + destruct (Hshown id a') as [Hnq Hc]; try done; [congruence|].
      split; [|done]. unfold queued_ids. cbn. rewrite List.map_app.
      intros [Hin|Hin]%elem_of_app; [done|].
      apply list_elem_of_singleton in Hin. done.
  - intros a s [Hent Hshown] Hrender Hvis.
    split; [by apply entered_render|].
    destruct Hent as (_ & Ha & _ & Hnq & Hnt). split; [|split; [done|]].
    + intros id a' Hskip Ha' Hnew Hr Hv. cbn in Ha'.
      destruct (Hshown id a') as [Hnq' Hc]; try done.
      split; [done|]. cbn [trace set_notifying set_registeredForNotifications set_registeredComponents set_random set_elements setAttribute_componentized after_register after_construct add_event append_trace].
      rewrite render_count_snoc_other; [done|congruence].
    + cbn [trace set_notifying set_registeredForNotifications set_registeredComponents set_random set_elements setAttribute_componentized after_register after_construct add_event append_trace].
      by rewrite render_count_snoc_self, (render_count_absent _ _ Hnt).
  - intros a. apply notifyAll_preserves.
    intros s s' (Hrend & Hshown & Hnq & Hc) Hrel.
    split; [by eapply rendering_notify_rel|].
    split; [by eapply shown_rendered_notify_rel|].
    destruct (unqueued_notify_rel s s' _ Hnq Hrel) as [Hnq' Hc']. by rewrite Hc'.
  - intros a s (Hrend & Hshown & Hnq & Hc). split; [by apply (rendering_done st0 a)|].
    destruct Hrend as (_ & Ha & _).
    intros id a' _ Ha' Hnew Hr Hv.
    destruct (decide (id = api_id a)) as [->|Hne]; [done|].
    apply (Hshown id a'); try done. congruence.
  - done.
Qed.

(** X11. An instance with a [render] that a returning pass of
    [initializeComponents] creates on a visible element was rendered exactly
    once by the pass and is not in the queue. *)
Theorem visible_instance_rendered_once_at_init (fuel : nat) (st0 st1 : loader)
    (id : string) (a : componentAPI) :
  well_formed st0 →
  initializeComponents fuel st0 = Normal tt st1 →
  _registeredComponents st1 !! id = Some a →
  _registeredComponents st0 !! id = None →
  is_Some (api_render a) →
  isVisible st0 (api_context a) = true →
  render_count id (trace st1) = 1%nat ∧ (a ∉ _registeredForNotifications st1).
Proof.
  intros Hwf Hrun Ha Hnew Hrender Hvis.
  assert (shown_rendered st0 None st0) as H0.
  { intros id' a' _ Ha' Hnew'. congruence. }
  pose proof (initializeComponents_triple
                (λ s, pass_inv st0 None s ∧ shown_rendered st0 None s) (λ _, True) fuel
                (λ n f e, instantiate_shown_rendered fuel n f e st0)
                (λ s _, I) st0 (conj (pass_inv_start st0 Hwf) H0)) as Hpass.
  rewrite Hrun in Hpass. destruct Hpass as [[Hwf1 _ _ _] Hshown].
  destruct (Hshown id a) as [Hnq Hc]; try done.
  split; [done|]. intros Hin. apply Hnq.
  rewrite <- (wf_key st1 Hwf1 id a Ha).
  apply list_elem_of_In, in_map. by apply list_elem_of_In.
Qed.

Lemma visible_instance_rendered_once_at_init_witness :
  well_formed Page.scanned
  ∧ initializeComponents 2 Page.scanned = Normal tt Page.loaded
  ∧ isVisible Page.scanned 1%nat = true
  ∧ render_count "i145" (trace Page.loaded) = 1%nat
  ∧ (make_api "i145" 1%nat {| m_init := Some []; m_render := Some [CallNotifyAll] |}
     ∉ _registeredForNotifications Page.loaded).
Proof.
  assert (well_formed Page.scanned) as Hwf.
  { apply (session_well_formed 2
             [Scan None; Register "widget" (Page.widget [] [CallNotifyAll])]
             Page.fresh); [apply empty_loader_well_formed|reflexivity]. }
  split; [exact Hwf|]. split; [reflexivity|]. split; [reflexivity|].
  apply (visible_instance_rendered_once_at_init 2 Page.scanned Page.loaded "i145"
           (make_api "i145" 1%nat
              {| m_init := Some []; m_render := Some [CallNotifyAll] |}));
    try reflexivity; try exact Hwf.
  cbn. eauto.
Defined.








(** ** findInstanceById *)



Lemma append_quote_inj (s s' t t' : string) :
  quote_free s = true → quote_free s' = true →
  s +:+ String "'" t = s' +:+ String "'" t' → s = s' ∧ t = t'.
Proof.
  revert s'. induction s as [|c s IH]; intros [|c' s'] Hs Hs'; cbn in *.
  - by intros [= ->].
  - intros [= <- _]. by rewrite Ascii.eqb_refl in Hs'.
  - intros [= -> _]. by rewrite Ascii.eqb_refl in Hs.
  - intros [= -> Heq].
    apply andb_true_iff in Hs as [_ Hs]. apply andb_true_iff in Hs' as [_ Hs'].
    destruct (IH s' Hs Hs' Heq) as [-> ->]. done.
Qed.

Lemma string_app_inv_head (p s s' : string) : p +:+ s = p +:+ s' → s = s'.
Proof. induction p as [|c p IH]; cbn; [done|]. intros [= H]. by apply IH. Qed.

Lemma quote_free_uint (d : Decimal.uint) :
  quote_free (NilEmpty.string_of_uint d) = true.
Proof. induction d; cbn; done. Qed.

Lemma generated_id_quote_free (table : gmap string componentAPI) (draws : list N)
    (id : string) (rest : list N) :
  draw_id table draws = Some (id, rest) → quote_free id = true.
Proof.
  intros Hd. destruct (draw_id_fresh _ _ _ _ Hd) as (_ & r & -> & _).
  cbn. apply quote_free_uint.
Qed.

(** X18. For identifiers free of apostrophes, as those the loader
    generates are, the string [getFunctionString] builds determines the
    identifier and the name of the function. *)
Theorem getFunctionString_names_one_call (functionName functionName' : string)
    (componentId componentId' : string) :
  quote_free componentId = true → quote_free componentId' = true →
  getFunctionString functionName componentId
  = getFunctionString functionName' componentId' →
  componentId = componentId' ∧ functionName = functionName'.
Proof.
  intros Hid Hid'. unfold getFunctionString. intros Heq.
  apply string_app_inv_head in Heq.
  destruct (append_quote_inj componentId componentId' _ _ Hid Hid' Heq) as [-> Hf].
  split; [done|]. by injection Hf.
Qed.

Lemma getFunctionString_names_one_call_witness :
  getFunctionString "render" "i147"
  = "ComponentLoader.findInstanceById('i147').render"
  ∧ ∀ functionName componentId,
      quote_free componentId = true →
      getFunctionString "render" "i147" = getFunctionString functionName componentId →
      "i147" = componentId ∧ "render" = functionName.
Proof.
  split; [reflexivity|]. intros functionName componentId Hid.
  by apply (getFunctionString_names_one_call "render" functionName "i147" componentId).
Defined.

Section KnobMore.

Variable value : Type.
Variable of_string : string → value.
Variable JSON_parse : string → option (Knob.parsed value).


End KnobMore.


Section KnobInit.

Variable value : Type.
Variable of_string : string → value.
Variable JSON_parse : string → option (Knob.parsed value).



End KnobInit.



Lemma frames_under_duration (t0 : Z) (clock : list Z) :
  Forall (λ now, now - t0 < Animation.ANIMATION_DURATION) clock →
  Animation.frames clock (Animation.start t0) = List.map (λ now, now - t0) clock.
Proof.
  induction clock as [|now later IH]; intros Hall; [done|].
  apply Forall_cons in Hall as [Hnow Hlater].
  cbn [Animation.frames List.map]. unfold Animation.tick, Animation.timeElapsed.
  cbn [Animation.isStarted Animation.startedTime Animation.start negb andb].
  apply Z.ltb_lt in Hnow. rewrite Hnow. by rewrite IH.
Qed.

(** X17. Once started at the time [t0], the animation draws at every
    frame up to and including the first one that runs 600 ms or more after
    [t0], with the time elapsed as progress, and asks for no frame after that
    one; as long as no frame has reached 600 ms it goes on. *)
Theorem animation_draws_until_duration (t0 : Z) (before : list Z) (now : Z)
    (after : list Z) :
  Forall (λ t, t - t0 < Animation.ANIMATION_DURATION) before →
  Animation.ANIMATION_DURATION ≤ now - t0 →
  Animation.frames (before ++ now :: after) (Animation.start t0)
  = List.map (λ t, t - t0) (before ++ [now])
  ∧ Animation.frames before (Animation.start t0) = List.map (λ t, t - t0) before.
Proof.
  intros Hbefore Hnow. split; [|by apply frames_under_duration].
  induction before as [|t before IH].
  - cbn. unfold Animation.timeElapsed. cbn.
    apply Z.ltb_ge in Hnow. by rewrite Hnow.
  - apply Forall_cons in Hbefore as [Ht Hbefore].
    cbn [app Animation.frames List.map]. unfold Animation.tick, Animation.timeElapsed.
    cbn [Animation.isStarted Animation.startedTime Animation.start negb andb].
    apply Z.ltb_lt in Ht. rewrite Ht. by rewrite IH.
Qed.

Lemma animation_draws_until_duration_witness :
  Animation.frames [1016; 1033; 1599; 1616; 1633] (Animation.start 1000)
  = [16; 33; 599; 616]
  ∧ Animation.frames [1016; 1033; 1599] (Animation.start 1000) = [16; 33; 599].
Proof.
  apply (animation_draws_until_duration 1000 [1016; 1033; 1599] 1616 [1633]).
  - repeat constructor.
  - unfold Animation.ANIMATION_DURATION. lia.
Defined.
